(** * obsidian_quotes.py: the paragraph extractor and its callers

    A shallow embedding of [ObsidianQuoteDisplay] (src/obsidian_quotes.py).
    A Python [str] is a sequence of Unicode code points; it is modelled as
    [list N].  The parts of the Python runtime the script relies on
    ([str.strip], [str.split], [str.join], [re.sub], [urllib.parse.quote])
    are modelled next to the methods that call them. *)

From Stdlib Require Import String Ascii.
From Stdlib Require Import List NArith ZArith Arith Bool Lia.
Import ListNotations.
Local Open Scope list_scope.

Set Implicit Arguments.

(** ** Python strings *)

Definition char := N.
Definition str := list char.

(** A literal of the source, written as a Rocq string (ASCII only). *)
Definition s_ (lit : string) : str :=
  map N_of_ascii (list_ascii_of_string lit).

Definition NL : char := 10%N.
Definition SP : char := 32%N.

Definition str_eqb (a b : str) : bool :=
  if list_eq_dec N.eq_dec a b then true else false.

(** [Py_UNICODE_ISSPACE]: the characters [str.strip()] removes and the regex
    class [\s] matches on a str pattern. *)
Definition isspace (c : char) : bool :=
  ((9 <=? c) && (c <=? 13) || (28 <=? c) && (c <=? 32)
   || (c =? 133) || (c =? 160) || (c =? 5760)
   || (8192 <=? c) && (c <=? 8202)
   || (c =? 8232) || (c =? 8233) || (c =? 8239) || (c =? 8287)
   || (c =? 12288))%N.

(** [s.lstrip()], [s.rstrip()], [s.strip()]. *)
Fixpoint lstrip (s : str) : str :=
  match s with
  | c :: s' => if isspace c then lstrip s' else s
  | [] => []
  end.

Definition rstrip (s : str) : str := rev (lstrip (rev s)).

Definition strip (s : str) : str := rstrip (lstrip s).

(** [s.startswith(p)] and [s.endswith(p)]. *)
Fixpoint startswith (s p : str) : bool :=
  match p, s with
  | [], _ => true
  | a :: p', c :: s' => (a =? c)%N && startswith s' p'
  | _ :: _, [] => false
  end.

Definition endswith (s p : str) : bool := startswith (rev s) (rev p).

(** [s[n:]]. *)
Definition slice_from (n : nat) (s : str) : str := skipn n s.

(** [s.split('\n')]: always at least one piece. *)
Fixpoint split_nl (s : str) : list str :=
  match s with
  | [] => [[]]
  | c :: s' =>
      if (c =? NL)%N then [] :: split_nl s'
      else match split_nl s' with
           | l :: ls => (c :: l) :: ls
           | [] => [[c]]
           end
  end.

(** [sep.join(parts)]. *)
Fixpoint join (sep : str) (parts : list str) : str :=
  match parts with
  | [] => []
  | [p] => p
  | p :: ps => p ++ sep ++ join sep ps
  end.

(** ** The parts of the Unicode database the script consults

    [str.isalpha], and the regex classes [\w] and [\d], follow the Unicode
    database of the running interpreter.  Their values on ASCII are fixed;
    above ASCII they are taken as given. *)
Record UnicodeData := {
  uni_isalpha : char -> bool;
  uni_isdecimal : char -> bool;
  uni_isalnum : char -> bool
}.

Definition ascii_isalpha (c : char) : bool :=
  ((65 <=? c) && (c <=? 90) || (97 <=? c) && (c <=? 122))%N.

Definition ascii_isdecimal (c : char) : bool :=
  ((48 <=? c) && (c <=? 57))%N.

Definition isalpha (ucd : UnicodeData) (c : char) : bool :=
  if (c <? 128)%N then ascii_isalpha c else uni_isalpha ucd c.

Definition isdecimal (ucd : UnicodeData) (c : char) : bool :=
  if (c <? 128)%N then ascii_isdecimal c else uni_isdecimal ucd c.

Definition isalnum (ucd : UnicodeData) (c : char) : bool :=
  if (c <? 128)%N then ascii_isalpha c || ascii_isdecimal c
  else uni_isalnum ucd c.

(** ** A model of [re.sub] for the patterns of the script

    Every pattern of the script is a flat sequence of single-character
    atoms, repetitions of one atom, the anchors [^] and [$] and at most one
    capturing group.  The matcher is a backtracking one with the priorities
    of Python's engine: a greedy repetition tries the longest run first, a
    lazy one the shortest. *)

Inductive atom :=
| ALit (c : char)        (* a literal character *)
| AAny                   (* .   any character but a newline *)
| ASpace                 (* \s *)
| AWord                  (* \w *)
| ADigit                 (* \d *)
| ASet (cs : list char). (* [...] *)

Inductive item :=
| One (a : atom)
| Rep (lo : nat) (hi : option nat) (greedy : bool) (a : atom)
| GOpen                  (* ( of group 1 *)
| GClose                 (* ) of group 1 *)
| Bol                    (* ^ *)
| Eol.                   (* $ *)

Definition regex := list item.

(** A run of literal characters. *)
Definition literal (o : str) : regex := map (fun c => One (ALit c)) o.

Definition lits (lit : string) : regex := literal (s_ lit).

Definition star_lazy (a : atom) : item := Rep 0 None false a.
Definition star (a : atom) : item := Rep 0 None true a.
Definition plus (a : atom) : item := Rep 1 None true a.

(** The replacement template: literal text and [\1]. *)
Inductive tpiece :=
| TLit (c : char)
| TGroup1.

Definition template := list tpiece.

Record marks := { m_open : option str; m_close : option str }.

Definition no_marks : marks := {| m_open := None; m_close := None |}.

Section Regex.
Variable ucd : UnicodeData.

Definition atom_ok (a : atom) (c : char) : bool :=
  match a with
  | ALit x => (x =? c)%N
  | AAny => negb (c =? NL)%N
  | ASpace => isspace c
  | AWord => isalnum ucd c || (c =? 95)%N
  | ADigit => isdecimal ucd c
  | ASet cs => existsb (fun x => (x =? c)%N) cs
  end.

Section Match.
Variable R : Type.

(** [a{lo,hi}] followed by the continuation [k]. *)
Fixpoint rep (a : atom) (greedy : bool) (k : str -> option R)
         (lo : nat) (hi : option nat) (s : str) {struct s} : option R :=
  let more :=
    match s with
    | c :: s' =>
        match hi with
        | Some 0 => None
        | _ => if atom_ok a c
               then rep a greedy k (pred lo) (option_map pred hi) s'
               else None
        end
    | [] => None
    end in
  match lo with
  | S _ => more
  | 0 =>
      if greedy
      then match more with Some r => Some r | None => k s end
      else match k s with Some r => Some r | None => more end
  end.
End Match.

(** Match [its] at the head of [r].  [n] is the length of the whole
    subject, [start] the text at the position the match began; with
    [must_advance] an empty match is refused. *)
Fixpoint exec (n : nat) (start : str) (must_advance : bool)
         (its : regex) (r : str) (mk : marks) {struct its}
  : option (str * marks) :=
  match its with
  | [] =>
      if must_advance && (length r =? length start) then None
      else Some (r, mk)
  | One a :: its' =>
      match r with
      | c :: r' => if atom_ok a c
                   then exec n start must_advance its' r' mk else None
      | [] => None
      end
  | Rep lo hi g a :: its' =>
      rep a g (fun r' => exec n start must_advance its' r' mk) lo hi r
  | GOpen :: its' =>
      exec n start must_advance its' r
           {| m_open := Some r; m_close := m_close mk |}
  | GClose :: its' =>
      exec n start must_advance its' r
           {| m_open := m_open mk; m_close := Some r |}
  | Bol :: its' =>
      if length r =? n then exec n start must_advance its' r mk else None
  | Eol :: its' =>
      match r with
      | [] => exec n start must_advance its' r mk
      | [c] => if (c =? NL)%N
               then exec n start must_advance its' r mk else None
      | _ => None
      end
  end.

(** The text of group 1. *)
Definition group1 (mk : marks) : str :=
  match m_open mk, m_close mk with
  | Some o, Some c => firstn (length o - length c) o
  | _, _ => []
  end.

Definition expand (t : template) (mk : marks) : str :=
  flat_map (fun p => match p with
                     | TLit c => [c]
                     | TGroup1 => group1 mk
                     end) t.

(** A match at the head of [s]: its length and its replacement. *)
Definition match_at (n : nat) (must_advance : bool) (p : regex)
           (t : template) (s : str) : option (nat * str) :=
  match exec n s must_advance p s no_marks with
  | Some (r, mk) => Some (length s - length r, expand t mk)
  | None => None
  end.

(** The scan of [re.sub]: leftmost matches, left to right, none
    overlapping.  [skip] counts the characters still covered by the last
    match. *)
Fixpoint sub_from (n : nat) (p : regex) (t : template)
         (skip : nat) (s : str) {struct s} : str :=
  match s with
  | [] =>
      match match_at n false p t [] with
      | Some (_, out) => out
      | None => []
      end
  | c :: s' =>
      match skip with
      | S k => sub_from n p t k s'
      | 0 =>
          match match_at n false p t s with
          | None => c :: sub_from n p t 0 s'
          | Some (S l, out) => out ++ sub_from n p t l s'
          | Some (0, out) =>
              out ++
              match match_at n true p t s with
              | Some (S l, out2) => out2 ++ sub_from n p t l s'
              | _ => c :: sub_from n p t 0 s'
              end
          end
      end
  end.

(** [re.sub(p, t, s)]. *)
Definition re_sub (p : regex) (t : template) (s : str) : str :=
  sub_from (length s) p t 0 s.

End Regex.

(** ** The class [ObsidianQuoteDisplay] *)

(** A [pathlib.Path], seen through the two observations the script makes of
    it: [p.name] and [str(p.absolute())]. *)
Record Path := { path_name : str; path_absolute : str }.

(** The object holds one attribute, set by [__init__]. *)
Record ObsidianQuoteDisplay := { books_directory : Path }.

Definition unknown_book : str := s_ "Unknown Book".

(** [extract_book_title], lines 16-23. *)
Fixpoint first_title (lines : list str) : str :=
  match lines with
  | [] => unknown_book
  | line :: rest =>
      let line := strip line in
      if startswith line (s_ "# ")
      then strip (slice_from 2 line)
      else first_title rest
  end.

Definition extract_book_title (self : ObsidianQuoteDisplay) (content : str)
  : str :=
  first_title (split_nl content).

Definition t_empty : template := [].
Definition t_group1 : template := [TGroup1].

(** The sixteen patterns of [is_markup_only], lines 30-45, in order. *)
Definition markup_patterns : list regex :=
  [ lits "![[" ++ [star_lazy AAny] ++ lits "]]"          (* !\[\[.*?\]\] *)
  ; lits "!rw-" ++ [plus AWord]                            (* !rw-\w+ *)
  ; lits "[[" ++ [star_lazy AAny] ++ lits "]]"           (* \[\[.*?\]\] *)
  ; lits "[" ++ [star_lazy AAny] ++ lits "]("
      ++ [star_lazy AAny] ++ lits ")"                      (* \[.*?\]\(.*?\) *)
  ; lits "`" ++ [star_lazy AAny] ++ lits "`"             (* `.*?` *)
  ; lits "**" ++ [star_lazy AAny] ++ lits "**"           (* \*\*.*?\*\* *)
  ; lits "*" ++ [star_lazy AAny] ++ lits "*"             (* \*.*?\* *)
  ; lits "==" ++ [star_lazy AAny] ++ lits "=="           (* ==.*?== *)
  ; lits "%%" ++ [star_lazy AAny] ++ lits "%%"           (* %%.*?%% *)
  ; lits "<!--" ++ [star_lazy AAny] ++ lits "-->"        (* <!--.*?--> *)
  ; lits "<" ++ [star_lazy AAny] ++ lits ">"             (* <.*?> *)
  ; [Rep 1 (Some 6) true (ALit 35%N); star ASpace]           (* #{1,6}\s* *)
  ; [Bol] ++ lits ">" ++ [star ASpace]                     (* ^>\s* *)
  ; [Bol; One (ASet (s_ "-*+")); star ASpace]              (* ^[-*+]\s* *)
  ; [Bol; plus ADigit] ++ lits "." ++ [star ASpace]        (* ^\d+\.\s* *)
  ; [Bol] ++ lits "--" ++ [plus (ALit 45%N); Eol]            (* ^---+$ *)
  ].

(** The seven patterns of [clean_markdown], lines 117-129, in order. *)
Definition clean_patterns : list regex :=
  [ lits "**" ++ [GOpen; star_lazy AAny; GClose] ++ lits "**"
  ; lits "*" ++ [GOpen; star_lazy AAny; GClose] ++ lits "*"
  ; lits "__" ++ [GOpen; star_lazy AAny; GClose] ++ lits "__"
  ; lits "_" ++ [GOpen; star_lazy AAny; GClose] ++ lits "_"
  ; lits "`" ++ [GOpen; star_lazy AAny; GClose] ++ lits "`"
  ; lits "[[" ++ [GOpen; star_lazy AAny; GClose] ++ lits "]]"
  ; lits "[" ++ [GOpen; star_lazy AAny; GClose] ++ lits "]("
      ++ [star_lazy AAny] ++ lits ")"
  ].

(** The state of the loop of [extract_paragraphs]: its three locals. *)
Record loop_state := {
  paragraphs : list str;
  current_paragraph : list str;
  in_frontmatter : bool
}.

Definition loop_init : loop_state :=
  {| paragraphs := []; current_paragraph := []; in_frontmatter := false |}.

(** Lines 74-91: [any(skip_conditions)] on the stripped line. *)
Definition skip_conditions (line_stripped : str) : list bool :=
  [ startswith line_stripped (s_ "#")
  ; str_eqb line_stripped []
  ; startswith line_stripped (s_ "```")
  ; startswith line_stripped (s_ ">")
  ; startswith line_stripped (s_ "- ")
  ; startswith line_stripped (s_ "* ")
  ; startswith line_stripped (s_ "1. ")
  ; startswith line_stripped (s_ "![[")
  ; startswith line_stripped (s_ "!rw-")
  ; startswith line_stripped (s_ "![")
  ; str_eqb line_stripped (s_ "---")
  ; startswith line_stripped (s_ "==")
  ; startswith line_stripped (s_ "%%")
  ; startswith line_stripped (s_ "<!--")
  ; startswith line_stripped (s_ "<")
  ; startswith line_stripped (s_ "[[") && endswith line_stripped (s_ "]]")
    && (length line_stripped <? 50)
  ].

Definition any (bs : list bool) : bool := existsb (fun b => b) bs.

Definition skippable (line_stripped : str) : bool :=
  any (skip_conditions line_stripped).

(** Lines 95-99 and 107-110: the paragraphs list after the buffer has been
    closed. *)
Definition finalize (ps : list str) (cur : list str) : list str :=
  match cur with
  | [] => ps
  | _ :: _ =>
      let paragraph_text := strip (join [SP] cur) in
      if 100 <? length paragraph_text then ps ++ [paragraph_text] else ps
  end.

Section Methods.
Variable ucd : UnicodeData.

(** [is_markup_only], lines 25-49. *)
Definition is_markup_only (self : ObsidianQuoteDisplay) (line : str)
  : bool :=
  let cleaned :=
    fold_left (fun cleaned p => re_sub ucd p t_empty cleaned)
              markup_patterns line in
  let cleaned := strip cleaned in
  (length cleaned <? 20) || negb (existsb (isalpha ucd) cleaned).

(** The body of the loop of [extract_paragraphs], lines 61-104, at index
    [i]. *)
Definition step (self : ObsidianQuoteDisplay) (i : nat) (st : loop_state)
           (line : str) : loop_state :=
  let line_stripped := strip line in
  if (i =? 0) && str_eqb line_stripped (s_ "---") then
    {| paragraphs := paragraphs st;
       current_paragraph := current_paragraph st;
       in_frontmatter := true |}
  else if in_frontmatter st && str_eqb line_stripped (s_ "---") then
    {| paragraphs := paragraphs st;
       current_paragraph := current_paragraph st;
       in_frontmatter := false |}
  else if in_frontmatter st then st
  else if skippable line_stripped then
    {| paragraphs := finalize (paragraphs st) (current_paragraph st);
       current_paragraph := [];
       in_frontmatter := in_frontmatter st |}
  else if negb (str_eqb line_stripped [])
          && negb (is_markup_only self line_stripped) then
    {| paragraphs := paragraphs st;
       current_paragraph := current_paragraph st ++ [line_stripped];
       in_frontmatter := in_frontmatter st |}
  else st.

(** [for i, line in enumerate(lines)], from index [i]. *)
Fixpoint run (self : ObsidianQuoteDisplay) (i : nat) (st : loop_state)
         (lines : list str) : loop_state :=
  match lines with
  | [] => st
  | line :: rest => run self (S i) (step self i st line) rest
  end.

(** [extract_paragraphs], lines 51-112. *)
Definition extract_paragraphs (self : ObsidianQuoteDisplay) (content : str)
  : list str :=
  let st := run self 0 loop_init (split_nl content) in
  finalize (paragraphs st) (current_paragraph st).

(** [clean_markdown], lines 114-131. *)
Definition clean_markdown (self : ObsidianQuoteDisplay) (text : str) : str :=
  fold_left (fun text p => re_sub ucd p t_group1 text) clean_patterns text.

End Methods.

(** ** [urllib.parse.quote] *)

Definition byte := N.

(** [s.encode('utf-8', 'strict')] on one code point; a surrogate (what a
    file name with undecodable bytes holds) raises [UnicodeEncodeError]. *)
Definition utf8_char (c : char) : option (list byte) :=
  (if c <? 128 then Some [c]
   else if c <? 2048 then
     Some [N.lor 192 (N.shiftr c 6); N.lor 128 (N.land c 63)]
   else if c <? 65536 then
     if (55296 <=? c) && (c <=? 57343) then None
     else Some [N.lor 224 (N.shiftr c 12);
                N.lor 128 (N.land (N.shiftr c 6) 63);
                N.lor 128 (N.land c 63)]
   else if c <? 1114112 then
     Some [N.lor 240 (N.shiftr c 18);
           N.lor 128 (N.land (N.shiftr c 12) 63);
           N.lor 128 (N.land (N.shiftr c 6) 63);
           N.lor 128 (N.land c 63)]
   else None)%N.

Fixpoint utf8_encode (s : str) : option (list byte) :=
  match s with
  | [] => Some []
  | c :: s' =>
      match utf8_char c, utf8_encode s' with
      | Some bs, Some rest => Some (bs ++ rest)
      | _, _ => None
      end
  end.

(** The bytes [quote] never escapes: [_ALWAYS_SAFE], letters, digits and
    [_.-~]. *)
Definition always_safe (b : byte) : bool :=
  ascii_isalpha b || ascii_isdecimal b
  || existsb (fun x => (x =? b)%N) (s_ "_.-~").

Definition hex_digit (d : N) : char :=
  (if d <? 10 then 48 + d else 55 + d)%N.

(** ['%{:02X}'.format(b)]. *)
Definition percent (b : byte) : str :=
  [37%N; hex_digit (N.shiftr b 4); hex_digit (N.land b 15)].

Definition quote_byte (safe : list char) (b : byte) : str :=
  if always_safe b || existsb (fun x => (x =? b)%N) safe
  then [b] else percent b.

(** [urllib.parse.quote(s, safe)]; [None] is the exception of the encoder. *)
Definition quote (safe : list char) (s : str) : option str :=
  match utf8_encode s with
  | Some bs => Some (flat_map (quote_byte safe) bs)
  | None => None
  end.

(** The default of the parameter [safe] of [quote]. *)
Definition default_safe : list char := s_ "/".

(** [get_obsidian_uri], lines 133-140. *)
Definition get_obsidian_uri (self : ObsidianQuoteDisplay) (file_path : Path)
  : option str :=
  let absolute_path := path_absolute file_path in
  match quote default_safe absolute_path with
  | Some encoded_path => Some (s_ "obsidian://open?path=" ++ encoded_path)
  | None => None
  end.

(** ** [get_random_quote] *)

(** What the method reads from outside: the listing of a directory, the
    text of a file ([None] when opening, reading or decoding it raises) and
    the successive draws of the random generator. *)
Record Env := {
  fs_glob_md : Path -> list Path;
  fs_read : Path -> option str;
  rand : nat -> nat
}.

(** What the method changes: the number of draws made, the files opened and
    the files an error line was printed for, oldest first. *)
Record World := {
  draws : nat;
  opened : list Path;
  printed_errors : list Path
}.

Definition world_init : World :=
  {| draws := 0; opened := []; printed_errors := [] |}.

(** The dict of line 183. *)
Record Quote := {
  q_quote : str;
  q_book : str;
  q_file : str;
  q_obsidian_link : str
}.

(** The method returns a str or a dict. *)
Definition result := (str + Quote)%type.

Definition no_files_found : str :=
  s_ "No markdown files found in the Books directory!".

Definition no_suitable_content : str :=
  s_ "No suitable content found in your book notes.".

Section Selector.
Variable ucd : UnicodeData.
Variable env : Env.
Variable self : ObsidianQuoteDisplay.

(** [get_markdown_files], lines 12-14. *)
Definition get_markdown_files : list Path :=
  fs_glob_md env (books_directory self).

(** [random.choice(seq)] on a non-empty [seq]. *)
Definition choice (A : Type) (d : A) (seq : list A) (w : World)
  : A * World :=
  (nth (rand env (draws w) mod length seq) seq d,
   {| draws := S (draws w); opened := opened w;
      printed_errors := printed_errors w |}).

Definition open_file (p : Path) (w : World) : World :=
  {| draws := draws w; opened := opened w ++ [p];
     printed_errors := printed_errors w |}.

Definition print_error (p : Path) (w : World) : World :=
  {| draws := draws w; opened := opened w;
     printed_errors := printed_errors w ++ [p] |}.

(** One turn of the loop, lines 169-191: [Some] is the [return] of line
    183, [None] falls through to [attempts += 1]. *)
Definition attempt (markdown_files : list Path) (w : World)
  : option Quote * World :=
  let d := books_directory self in
  let (random_file, w) := choice d markdown_files w in
  let w := open_file random_file w in
  match fs_read env random_file with
  | None => (None, print_error random_file w)
  | Some content =>
      let book_title := extract_book_title self content in
      let paragraphs := extract_paragraphs ucd self content in
      match paragraphs with
      | [] => (None, w)
      | _ :: _ =>
          let (random_paragraph, w) := choice [] paragraphs w in
          let clean_paragraph := clean_markdown ucd self random_paragraph in
          match get_obsidian_uri self random_file with
          | None => (None, print_error random_file w)
          | Some obsidian_uri =>
              (Some {| q_quote := clean_paragraph;
                       q_book := book_title;
                       q_file := path_name random_file;
                       q_obsidian_link := obsidian_uri |}, w)
          end
      end
  end.

(** [while attempts < 10], lines 168-195, with [remaining] turns left
    ([remaining = 10 - attempts]). *)
Fixpoint attempts_loop (markdown_files : list Path) (remaining : nat)
         (w : World) : result * World :=
  match remaining with
  | 0 => (inl no_suitable_content, w)
  | S remaining' =>
      match attempt markdown_files w with
      | (Some q, w') => (inr q, w')
      | (None, w') => attempts_loop markdown_files remaining' w'
      end
  end.

(** [get_random_quote], lines 159-195. *)
Definition get_random_quote (w : World) : result * World :=
  let markdown_files := get_markdown_files in
  match markdown_files with
  | [] => (inl no_files_found, w)
  | _ :: _ => attempts_loop markdown_files 10 w
  end.

End Selector.

(** ** Definitions used to state the properties *)

(** A document given by its lines. *)
Definition doc (lines : list string) : str := join [NL] (map s_ lines).

(** Unicode data that knows nothing above ASCII. *)
Definition ascii_only : UnicodeData :=
  {| uni_isalpha := fun _ => false;
     uni_isdecimal := fun _ => false;
     uni_isalnum := fun _ => false |}.

(** An object of the class; the methods below never look inside it. *)
Definition some_display : ObsidianQuoteDisplay :=
  {| books_directory :=
       {| path_name := s_ "Books"; path_absolute := s_ "/notes/Books" |} |}.

(** No whitespace at either end. *)
Definition edge (s : str) : bool :=
  match s with
  | [] => true
  | c :: _ => negb (isspace c)
  end.

Definition trimmed (s : str) : bool := edge s && edge (rev s).

(** The result of [extract_paragraphs] on a document already split. *)
Definition paragraphs_of_lines (ucd : UnicodeData)
           (self : ObsidianQuoteDisplay) (i : nat) (lines : list str)
  : list str :=
  let st := run ucd self i loop_init lines in
  finalize (paragraphs st) (current_paragraph st).

(** The data model of the specification: every line falls in one class,
    here as coarse as the extraction needs. *)
Inductive line_class :=
| KFrontmatter
| KSkippable
| KMarkupOnly
| KProse (text : str).

(** The class of each line, from line [i], [fm] telling whether the
    frontmatter block is open. *)
Fixpoint classify (ucd : UnicodeData) (self : ObsidianQuoteDisplay)
         (i : nat) (fm : bool) (lines : list str) : list line_class :=
  match lines with
  | [] => []
  | line :: rest =>
      let t := strip line in
      if (i =? 0) && str_eqb t (s_ "---")
      then KFrontmatter :: classify ucd self (S i) true rest
      else if fm && str_eqb t (s_ "---")
      then KFrontmatter :: classify ucd self (S i) false rest
      else if fm then KFrontmatter :: classify ucd self (S i) fm rest
      else if skippable t then KSkippable :: classify ucd self (S i) fm rest
      else if is_markup_only ucd self t
      then KMarkupOnly :: classify ucd self (S i) fm rest
      else KProse t :: classify ucd self (S i) fm rest
  end.

Definition close_run (cur : list str) : list (list str) :=
  match cur with
  | [] => []
  | _ :: _ => [cur]
  end.

(** The maximal runs of prose lines: a skippable line ends a run, a
    markup-only line is as if absent. *)
Fixpoint prose_runs (cur : list str) (ks : list line_class)
  : list (list str) :=
  match ks with
  | [] => close_run cur
  | KSkippable :: r => close_run cur ++ prose_runs [] r
  | KProse t :: r => prose_runs (cur ++ [t]) r
  | KFrontmatter :: r | KMarkupOnly :: r => prose_runs cur r
  end.

(** The paragraphs of the specification, before the length gate. *)
Definition candidate_paragraphs (ucd : UnicodeData)
           (self : ObsidianQuoteDisplay) (content : str) : list str :=
  map (fun r => strip (join [SP] r))
      (prose_runs [] (classify ucd self 0 false (split_nl content))).

Definition long_enough (p : str) : bool := 100 <? length p.

(** Percent-encoding of a URI component as the specification words it:
    nothing but the unreserved characters is kept, so [/] is escaped. *)
Definition uri_component (s : str) : option str := quote [] s.

(** What the loop keeps true of its state. *)
Definition good_paragraph (p : str) : Prop :=
  100 < length p /\ trimmed p = true /\ ~ In NL p.

Definition loop_inv (st : loop_state) : Prop :=
  Forall good_paragraph (paragraphs st)
  /\ Forall (fun l => ~ In NL l) (current_paragraph st).

(** A line that reaches the buffer. *)
Definition prose_line (ucd : UnicodeData) (self : ObsidianQuoteDisplay)
           (line : str) : bool :=
  negb (skippable (strip line))
  && negb (is_markup_only ucd self (strip line)).

(** The line that opens and closes the frontmatter. *)
Definition rule : str := s_ "---".

(** What holds of the state before line [i]. *)
Definition before_line (i : nat) (st : loop_state) : Prop :=
  (i = 0 -> st = loop_init)
  /\ (in_frontmatter st = true ->
      paragraphs st = [] /\ current_paragraph st = []).

(** The literal a pattern starts with, when it starts with one. *)
Definition head_literal (p : regex) : option char :=
  match p with
  | One (ALit c) :: _ => Some c
  | _ => None
  end.

(** The characters an inline marker of [clean_markdown] starts with. *)
Definition marker_chars : list char := s_ "*_`[".

(** A file that cannot give a quote: reading it fails, or it holds no
    paragraph that passes the gate. *)
Definition barren (ucd : UnicodeData) (env : Env)
           (self : ObsidianQuoteDisplay) (f : Path) : Prop :=
  match fs_read env f with
  | None => True
  | Some content => extract_paragraphs ucd self content = []
  end.

(** The fixed part of the deep link. *)
Definition uri_prefix : str := s_ "obsidian://open?path=".

(** [o(.*?)c]: a group between two literal delimiters. *)
Definition wrapped (o c : str) : regex :=
  literal o ++ [GOpen; star_lazy AAny; GClose] ++ literal c.

(** The last pattern of [clean_markdown]. *)
Definition link_pattern : regex :=
  literal [91%N] ++ [GOpen; star_lazy AAny; GClose] ++ literal [93%N; 40%N]
    ++ [star_lazy AAny] ++ literal [41%N].

(** [d] never comes twice in a row in [s]. *)
Fixpoint no_pair (d : char) (s : str) : bool :=
  match s with
  | a :: (b :: _) as s' => negb ((a =? d)%N && (b =? d)%N) && no_pair d s'
  | _ => true
  end.

(** None of the characters [cs] occurs in [x]. *)
Definition free_of (cs : list char) (x : str) : Prop :=
  forall c, In c cs -> ~ In c x.

(** The substitutions [ps] one after the other, as [clean_markdown] runs
    its own. *)
Definition cleaned (ucd : UnicodeData) (ps : list regex) (text : str)
  : str :=
  fold_left (fun text p => re_sub ucd p t_group1 text) ps text.

(** What the text between two markers must not hold, and what the target
    of a link must not hold. *)
Definition text_chars : list char := NL :: s_ "*_`[]".
Definition url_chars : list char := NL :: s_ "*_`[)".

(** A line of the buffer: the trimmed form of a line of the document that
    is neither skippable nor markup-only. *)
Definition buffered_line (ucd : UnicodeData) (self : ObsidianQuoteDisplay)
           (lines : list str) (l : str) : Prop :=
  (exists line, In line lines /\ l = strip line)
  /\ skippable l = false
  /\ is_markup_only ucd self l = false.

(** A paragraph made of lines of the buffer. *)
Definition built_from (ucd : UnicodeData) (self : ObsidianQuoteDisplay)
           (lines : list str) (p : str) : Prop :=
  exists ls, ls <> [] /\ p = join [SP] ls
             /\ Forall (buffered_line ucd self lines) ls.

(** The prefixes that make a line skippable. *)
Definition skip_prefixes : list str :=
  map s_ ["#"; "```"; ">"; "- "; "* "; "1. "; "![["; "!rw-"; "!["; "==";
          "%%"; "<!--"; "<"]%string.

(** The characters of some lines, one more for each line. *)
Definition cost (ls : list str) : nat :=
  list_sum (map (fun l => S (length l)) ls).

Definition total (ps : list str) : nat := list_sum (map (@length char) ps).

(** The marks a match has set lie between its two ends. *)
Definition marks_within (hi lo : nat) (mk : marks) : Prop :=
  (forall o, m_open mk = Some o -> lo <= length o <= hi)
  /\ (forall c, m_close mk = Some c -> lo <= length c <= hi).

(** A template of this script: nothing, or the group. *)
Definition plain_template (t : template) : Prop :=
  t = t_empty \/ t = t_group1.

(** What the loop keeps true of the make of its paragraphs. *)
Definition make_inv (ucd : UnicodeData) (self : ObsidianQuoteDisplay)
           (lines : list str) (st : loop_state) : Prop :=
  Forall (built_from ucd self lines) (paragraphs st)
  /\ Forall (buffered_line ucd self lines) (current_paragraph st).

(** The characters held by a state of the loop. *)
Definition kept (st : loop_state) : nat :=
  total (paragraphs st) + cost (current_paragraph st).

(** The document does not end inside a frontmatter block left open. *)
Definition frontmatter_closed (ucd : UnicodeData)
           (self : ObsidianQuoteDisplay) (content : str) : Prop :=
  in_frontmatter (run ucd self 0 loop_init (split_nl content)) = false.

(** A file that gives a quote whenever it is picked. *)
Definition fertile (ucd : UnicodeData) (env : Env)
           (self : ObsidianQuoteDisplay) (f : Path) : Prop :=
  exists content,
    fs_read env f = Some content
    /\ extract_paragraphs ucd self content <> []
    /\ get_obsidian_uri self f <> None.

(** The file the [k]-th draw picks among [files]. *)
Definition drawn (env : Env) (self : ObsidianQuoteDisplay)
           (files : list Path) (k : nat) : Path :=
  nth (rand env k mod length files) files (books_directory self).

(** A directory of two notes, one empty and one with a paragraph, and a
    generator that always draws [pick]. *)
Definition two_notes (pick : nat) : Env :=
  {| fs_glob_md := fun _ =>
       [ {| path_name := s_ "empty.md";
            path_absolute := s_ "/notes/Books/empty.md" |};
         {| path_name := s_ "full.md";
            path_absolute := s_ "/notes/Books/full.md" |} ];
     fs_read := fun p =>
       if str_eqb (path_name p) (s_ "full.md")
       then Some (repeat 97%N 120) else Some [];
     rand := fun _ => pick |}.

(** The characters a deep link is made of. *)
Definition uri_char (c : char) : bool :=
  ascii_isalpha c || ascii_isdecimal c
  || existsb (fun x => (x =? c)%N) (s_ "_.-~/%:?=").

(** A byte [quote] leaves as it is, with the default [safe]. *)
Definition kept_byte (b : byte) : bool :=
  always_safe b || existsb (fun x => (x =? b)%N) default_safe.

(** The UTF-8 encoding of a code point, in plain arithmetic. *)
Definition utf8_arith (c : char) : option (list byte) :=
  (if c <? 128 then Some [c]
   else if c <? 2048 then Some [192 + c / 64; 128 + c mod 64]
   else if c <? 65536 then
     if (55296 <=? c) && (c <=? 57343) then None
     else Some [224 + c / 4096; 128 + (c / 64) mod 64; 128 + c mod 64]
   else if c <? 1114112 then
     Some [240 + c / 262144; 128 + (c / 4096) mod 64;
           128 + (c / 64) mod 64; 128 + c mod 64]
   else None)%N.

(** ** [__init__], [display_quote] and [main]

    What the program writes is kept as the list of its calls to [print]
    and [input], in order; the error lines [get_random_quote] prints are
    those of the world.  Writing to the terminal is taken to succeed. *)

Inductive event :=
| Print (text : str)     (* print(text) *)
| Prompt (text : str).   (* the prompt of input(text) *)

(** What the program asks of the system besides the files: the path a
    string stands for, whether a path exists, and [str.lower] on a string
    that is not all ASCII. *)
Record Os := {
  to_path : str -> Path;
  path_exists : Path -> bool;
  uni_lower : str -> str
}.

(** [__init__], lines 7-10; [inl] is the message of the
    [FileNotFoundError] raised. *)
Definition init (os : Os) (books_directory : str)
  : str + ObsidianQuoteDisplay :=
  let p := to_path os books_directory in
  if path_exists os p then inr {| books_directory := p |}
  else inl (s_ "Directory '" ++ books_directory ++ s_ "' not found!").

Definition double_rule : str := repeat 61%N 80.   (* "=" * 80 *)
Definition single_rule : str := repeat 9472%N 80. (* "─" * 80 *)

(** [display_quote], lines 197-211. *)
Definition display_quote (ucd : UnicodeData) (env : Env)
           (self : ObsidianQuoteDisplay) (w : World)
  : list event * World :=
  let (result, w) := get_random_quote ucd env self w in
  match result with
  | inr q =>
      ([ Print double_rule;
         Print ([NL; 128218%N] ++ s_ " From: " ++ q_book q);
         Print ([128196%N] ++ s_ " File: " ++ q_file q);
         Print ([128279%N] ++ s_ " Open in Obsidian: "
                  ++ q_obsidian_link q);
         Print (NL :: single_rule);
         Print (NL :: q_quote q);
         Print (NL :: single_rule);
         Print [] ], w)
  | inl message => ([Print message], w)
  end.

Definition ascii_lower (c : char) : char :=
  if ((65 <=? c) && (c <=? 90))%N then (c + 32)%N else c.

(** [s.lower()]. *)
Definition lower (os : Os) (s : str) : str :=
  if forallb (fun c => (c <? 128)%N) s then map ascii_lower s
  else uni_lower os s.

(** [choice in ['y', 'yes']] for [choice = answer.lower()]. *)
Definition is_yes (os : Os) (answer : str) : bool :=
  let choice := lower os answer in
  existsb (str_eqb choice) [s_ "y"; s_ "yes"].

Definition another_quote : str :=
  NL :: s_ "Would you like another quote? (y/n): ".

Definition happy_reading : str := s_ "Happy reading! " ++ [128214%N].

(** What [except Exception] prints when [input] finds the input at its
    end and raises [EOFError]. *)
Definition end_of_input : str :=
  s_ "An error occurred: EOF when reading a line".

(** The loop of [main], lines 224-231, on the lines the user types. *)
Fixpoint ask (ucd : UnicodeData) (os : Os) (env : Env)
         (quote_display : ObsidianQuoteDisplay) (answers : list str)
         (w : World) : list event * World :=
  match answers with
  | [] => ([Prompt another_quote; Print end_of_input], w)
  | answer :: rest =>
      if is_yes os answer then
        let (shown, w) := display_quote ucd env quote_display w in
        let (more, w) := ask ucd os env quote_display rest w in
        (Prompt another_quote :: Print (NL :: double_rule) :: shown ++ more,
         w)
      else ([Prompt another_quote; Print happy_reading], w)
  end.

Definition books_path : str := s_ "/Users/catherinepope/CP/Readwise/Books".

(** [main], lines 213-237. *)
Definition main (ucd : UnicodeData) (os : Os) (env : Env)
           (answers : list str) (w : World) : list event * World :=
  match init os books_path with
  | inr quote_display =>
      let (shown, w) := display_quote ucd env quote_display w in
      let (more, w) := ask ucd os env quote_display answers w in
      (Print ([NL; 127922%N] ++ s_ " Random Quote from Your Book Notes:")
         :: shown ++ more, w)
  | inl message =>
      ([ Print (s_ "Error: " ++ message);
         Print (s_ "Make sure the path to your Books directory is correct.")
       ], w)
  end.

(** The answers taken for a yes at the head of [answers]. *)
Fixpoint leading_yes (os : Os) (answers : list str) : nat :=
  match answers with
  | answer :: rest => if is_yes os answer then S (leading_yes os rest) else 0
  | [] => 0
  end.

Definition is_prompt (e : event) : bool :=
  match e with
  | Prompt _ => true
  | Print _ => false
  end.

(** A system where the directory of [main] exists or not. *)
Definition some_os (there : bool) : Os :=
  {| to_path := fun s => {| path_name := s_ "Books"; path_absolute := s |};
     path_exists := fun _ => there;
     uni_lower := fun s => s |}.

(** ** The text methods on the interpreter's store

    A Python list is an object: a name holds a reference to it and
    [append] changes it in place, for every holder of the reference.  The
    store holds the list objects made so far, the objects of the class with
    their attribute, and the world outside.  A method is a function from
    the store to its result and the store it leaves.  Strings are values:
    Python cannot change them in place; so are the lists that are never
    changed once made ([lines], [skip_conditions]). *)

Definition ref := nat.

Record Store := {
  lists : list (list str);
  objects : list ObsidianQuoteDisplay;
  world : World
}.

Definition M (A : Type) : Type := Store -> A * Store.

Definition ret (A : Type) (a : A) : M A := fun s => (a, s).

Definition bind (A B : Type) (m : M A) (k : A -> M B) : M B :=
  fun s => let (a, s) := m s in k a s.

Notation "x <- m ;; k" := (bind m (fun x => k))
  (at level 61, m at next level, right associativity).

Fixpoint update (l : ref) (f : list str -> list str)
         (h : list (list str)) : list (list str) :=
  match h with
  | [] => []
  | x :: h' =>
      match l with
      | 0 => f x :: h'
      | S l' => x :: update l' f h'
      end
  end.

Definition with_lists (s : Store) (h : list (list str)) : Store :=
  {| lists := h; objects := objects s; world := world s |}.

(** [[]]: a new list object. *)
Definition new_list : M ref :=
  fun s => (length (lists s), with_lists s (lists s ++ [[]])).

(** [l.append(x)]. *)
Definition append (l : ref) (x : str) : M unit :=
  fun s => (tt, with_lists s (update l (fun items => items ++ [x]) (lists s))).

(** What the list [l] holds now. *)
Definition items (l : ref) : M (list str) :=
  fun s => (nth l (lists s) [], s).

Definition list_of (s : Store) (l : ref) : list str := nth l (lists s) [].

Section Stateful.
Variable ucd : UnicodeData.

(** [extract_book_title], lines 16-23. *)
Definition extract_book_title_m (self : ref) (content : str) : M str :=
  let lines := split_nl content in
  ret (first_title lines).

(** [is_markup_only], lines 25-49. *)
Definition is_markup_only_m (self : ref) (line : str) : M bool :=
  let cleaned :=
    fold_left (fun cleaned p => re_sub ucd p t_empty cleaned)
              markup_patterns line in
  let cleaned := strip cleaned in
  ret ((length cleaned <? 20) || negb (existsb (isalpha ucd) cleaned)).

(** [clean_markdown], lines 114-131. *)
Definition clean_markdown_m (self : ref) (text : str) : M str :=
  let text :=
    fold_left (fun text p => re_sub ucd p t_group1 text) clean_patterns text
  in
  ret text.

(** The body of the loop of [extract_paragraphs], lines 61-104: the list
    [paragraphs] is changed in place, the names [current_paragraph] and
    [in_frontmatter] are bound anew. *)
Definition step_m (self paragraphs : ref) (i : nat) (line : str)
           (names : ref * bool) : M (ref * bool) :=
  let (current_paragraph, in_frontmatter) := names in
  let line_stripped := strip line in
  if (i =? 0) && str_eqb line_stripped (s_ "---") then
    ret (current_paragraph, true)
  else if in_frontmatter && str_eqb line_stripped (s_ "---") then
    ret (current_paragraph, false)
  else if in_frontmatter then ret (current_paragraph, in_frontmatter)
  else if skippable line_stripped then
    buffer <- items current_paragraph ;;
    match buffer with
    | [] => ret (current_paragraph, in_frontmatter)
    | _ :: _ =>
        let paragraph_text := strip (join [SP] buffer) in
        _ <- (if 100 <? length paragraph_text
              then append paragraphs paragraph_text else ret tt) ;;
        current_paragraph <- new_list ;;
        ret (current_paragraph, in_frontmatter)
    end
  else if negb (str_eqb line_stripped []) then
    markup_only <- is_markup_only_m self line_stripped ;;
    if negb markup_only then
      _ <- append current_paragraph line_stripped ;;
      ret (current_paragraph, in_frontmatter)
    else ret (current_paragraph, in_frontmatter)
  else ret (current_paragraph, in_frontmatter).

Fixpoint run_m (self paragraphs : ref) (i : nat) (lines : list str)
         (names : ref * bool) : M (ref * bool) :=
  match lines with
  | [] => ret names
  | line :: rest =>
      names <- step_m self paragraphs i line names ;;
      run_m self paragraphs (S i) rest names
  end.

(** [extract_paragraphs], lines 51-112: the result is the reference to the
    list [paragraphs]. *)
Definition extract_paragraphs_m (self : ref) (content : str) : M ref :=
  let lines := split_nl content in
  paragraphs <- new_list ;;
  current_paragraph <- new_list ;;
  names <- run_m self paragraphs 0 lines (current_paragraph, false) ;;
  buffer <- items (fst names) ;;
  _ <- match buffer with
       | [] => ret tt
       | _ :: _ =>
           let paragraph_text := strip (join [SP] buffer) in
           if 100 <? length paragraph_text
           then append paragraphs paragraph_text else ret tt
       end ;;
  ret paragraphs.

End Stateful.

(** The store [s'] holds all that [s] held, as it was: the same objects,
    the same world, and every list of [s] with the items it had. *)
Definition untouched (s s' : Store) : Prop :=
  objects s' = objects s /\ world s' = world s
  /\ exists made, lists s' = lists s ++ made.

(** The loop of the method on the store, at a state of the loop as a
    function: the list [paragraphs] is the first one made and the list
    [current_paragraph] the last. *)
Definition tracks (s0 s : Store) (result : ref) (names : ref * bool)
           (st : loop_state) : Prop :=
  exists old,
    lists s = lists s0 ++ paragraphs st :: old ++ [current_paragraph st]
    /\ result = length (lists s0)
    /\ fst names = length (lists s0) + S (length old)
    /\ snd names = in_frontmatter st
    /\ objects s = objects s0 /\ world s = world s0.

(** * Properties *)

(** ** Strings *)

Lemma str_eqb_eq (a b : str) : str_eqb a b = true <-> a = b.
Proof.
  unfold str_eqb. destruct (list_eq_dec N.eq_dec a b); split; congruence.
Qed.

Lemma lstrip_incl (s : str) (c : char) : In c (lstrip s) -> In c s.
Proof.
  induction s as [|x s IH]; simpl; auto.
  destruct (isspace x); simpl; intuition.
Qed.

Lemma strip_incl (s : str) (c : char) : In c (strip s) -> In c s.
Proof.
  unfold strip, rstrip. intros H.
  apply in_rev, lstrip_incl in H. apply in_rev in H.
  now apply lstrip_incl.
Qed.

Lemma lstrip_edge (s : str) : edge (lstrip s) = true.
Proof.
  induction s as [|x s IH]; simpl; auto.
  destruct (isspace x) eqn:E; simpl; auto. now rewrite E.
Qed.

Lemma lstrip_snoc (s : str) (c : char) :
  isspace c = false -> lstrip (s ++ [c]) = lstrip s ++ [c].
Proof.
  intros Hc. induction s as [|x s IH]; simpl.
  - now rewrite Hc.
  - destruct (isspace x); auto.
Qed.

Lemma rstrip_edge (s : str) : edge s = true -> edge (rstrip s) = true.
Proof.
  destruct s as [|c s]; auto. simpl. intros Hc.
  apply negb_true_iff in Hc. unfold rstrip. simpl.
  rewrite lstrip_snoc by assumption.
  rewrite rev_app_distr. simpl. now rewrite Hc.
Qed.

Lemma strip_trimmed (s : str) : trimmed (strip s) = true.
Proof.
  unfold trimmed. apply andb_true_iff. split.
  - unfold strip. apply rstrip_edge, lstrip_edge.
  - unfold strip, rstrip. rewrite rev_involutive. apply lstrip_edge.
Qed.

Lemma split_nl_no_newline (s : str) :
  Forall (fun l => ~ In NL l) (split_nl s).
Proof.
  induction s as [|c s IH]; simpl.
  - constructor; auto.
  - destruct (N.eqb_spec c NL) as [->|Hc].
    + constructor; auto.
    + destruct (split_nl s) as [|l ls].
      * constructor; auto. simpl. intuition.
      * inversion IH; subst. constructor; auto.
        simpl. intuition.
Qed.

Lemma join_incl (sep : str) (parts : list str) (c : char) :
  In c (join sep parts) -> In c sep \/ exists p, In p parts /\ In c p.
Proof.
  induction parts as [|p ps IH]; simpl; [tauto|].
  destruct ps as [|q ps].
  - intros H. right. exists p. auto.
  - intros H. apply in_app_or in H. destruct H as [H|H].
    + right. exists p. auto.
    + apply in_app_or in H. destruct H as [H|H]; auto.
      destruct (IH H) as [?|[r [Hr Hc]]]; auto.
      right. exists r. split; [right; exact Hr | exact Hc].
Qed.

(** ** The loop of [extract_paragraphs] *)

Lemma finalize_good (ps cur : list str) :
  Forall good_paragraph ps -> Forall (fun l => ~ In NL l) cur ->
  Forall good_paragraph (finalize ps cur).
Proof.
  intros Hps Hcur. unfold finalize. destruct cur as [|l cur']; auto.
  set (cur := l :: cur') in *.
  destruct (Nat.ltb_spec 100 (length (strip (join [SP] cur)))); auto.
  apply Forall_app. split; auto. constructor; auto.
  repeat split; auto using strip_trimmed.
  intros Hin. apply strip_incl, join_incl in Hin.
  destruct Hin as [[Hin|[]]|[p [Hp Hin]]]; [discriminate|].
  rewrite Forall_forall in Hcur. exact (Hcur p Hp Hin).
Qed.

Lemma step_inv ucd self i st line :
  ~ In NL line -> loop_inv st -> loop_inv (step ucd self i st line).
Proof.
  intros Hline [Hps Hcur]. unfold step.
  repeat match goal with
         | |- loop_inv (if ?b then _ else _) => destruct b
         end; split; simpl; auto using finalize_good.
  apply Forall_app. split; auto. constructor; auto.
  intros Hin. now apply strip_incl in Hin.
Qed.

Lemma run_inv ucd self lines : forall i st,
  Forall (fun l => ~ In NL l) lines -> loop_inv st ->
  loop_inv (run ucd self i st lines).
Proof.
  induction lines as [|l ls IH]; simpl; intros i st Hls Hst; auto.
  inversion Hls; subst. apply IH; auto using step_inv.
Qed.

Lemma extract_paragraphs_good ucd self content :
  Forall good_paragraph (extract_paragraphs ucd self content).
Proof.
  unfold extract_paragraphs.
  destruct (run_inv ucd self 0 (split_nl_no_newline content)
                    (st := loop_init)) as [Hps Hcur].
  - split; constructor.
  - now apply finalize_good.
Qed.

(** C9. Every paragraph [extract_paragraphs] returns is longer than 100
    characters, has no whitespace at either end and holds no newline. *)
Theorem extract_paragraphs_output_invariant :
  forall ucd self content,
    Forall (fun p => 100 < length p /\ trimmed p = true /\ ~ In NL p)
           (extract_paragraphs ucd self content).
Proof.
  intros ucd self content.
  pose proof (extract_paragraphs_good ucd self content) as H.
  rewrite Forall_forall in *. intros p Hp.
  destruct (H p Hp) as (Hlen & Htrim & Hnl). auto.
Qed.

(** ** The length gate *)

Lemma finalize_spec (ps cur : list str) :
  finalize ps cur =
  ps ++ filter long_enough
               (map (fun r => strip (join [SP] r)) (close_run cur)).
Proof.
  unfold finalize, close_run, long_enough.
  destruct cur as [|l cur']; simpl; [now rewrite app_nil_r|].
  match goal with |- context [100 <? ?n] => destruct (100 <? n) end;
    [reflexivity | now rewrite app_nil_r].
Qed.

Lemma skippable_empty (t : str) :
  skippable t = false -> str_eqb t [] = false.
Proof.
  intros H. destruct (str_eqb t []) eqn:E; auto.
  apply str_eqb_eq in E. subst t. discriminate H.
Qed.

Lemma skippable_rule (t : str) :
  skippable t = false -> str_eqb t (s_ "---") = false.
Proof.
  intros H. destruct (str_eqb t (s_ "---")) eqn:E; auto.
  apply str_eqb_eq in E. subst t. discriminate H.
Qed.

Ltac loop_cbn :=
  cbn [run classify prose_runs close_run paragraphs current_paragraph
       in_frontmatter andb negb app].

Lemma run_refines ucd self lines : forall i st,
  finalize (paragraphs (run ucd self i st lines))
           (current_paragraph (run ucd self i st lines)) =
  paragraphs st ++
  filter long_enough
    (map (fun r => strip (join [SP] r))
         (prose_runs (current_paragraph st)
                     (classify ucd self i (in_frontmatter st) lines))).
Proof.
  induction lines as [|l ls IH]; intros i st; loop_cbn.
  - apply finalize_spec.
  - rewrite IH. unfold step.
    destruct ((i =? 0) && str_eqb (strip l) (s_ "---")); [reflexivity|].
    destruct (in_frontmatter st) eqn:Hfm; loop_cbn.
    + destruct (str_eqb (strip l) (s_ "---")); loop_cbn;
        now rewrite ?Hfm.
    + destruct (skippable (strip l)) eqn:Hskip; loop_cbn.
      * rewrite finalize_spec, map_app, filter_app, app_assoc.
        reflexivity.
      * rewrite (skippable_empty _ Hskip). loop_cbn.
        destruct (is_markup_only ucd self (strip l)); loop_cbn;
          now rewrite ?Hfm.
Qed.

Lemma extract_paragraphs_gate ucd self content :
  extract_paragraphs ucd self content =
  filter long_enough (candidate_paragraphs ucd self content).
Proof.
  unfold extract_paragraphs, candidate_paragraphs.
  now rewrite run_refines.
Qed.

(** C1. The paragraphs returned are exactly the candidate paragraphs (runs
    of prose lines, joined by a space and trimmed) longer than 100
    characters, in order: a paragraph of 100 characters is left out, one of
    101 is kept, on one line or joined from two, and the length is that of
    the text as written, markers included. *)
Theorem extract_paragraphs_length_gate :
  forall ucd self,
    (forall content,
        extract_paragraphs ucd self content =
        filter (fun p => 100 <? length p)
               (candidate_paragraphs ucd self content))
    /\ (forall content p,
           In p (extract_paragraphs ucd self content) <->
           In p (candidate_paragraphs ucd self content) /\ 100 < length p)
    /\ (candidate_paragraphs ucd self (repeat 97%N 100) = [repeat 97%N 100]
        /\ extract_paragraphs ucd self (repeat 97%N 100) = [])
    /\ extract_paragraphs ucd self (repeat 97%N 101) = [repeat 97%N 101]
    /\ (let content := repeat 97%N 50 ++ [NL] ++ repeat 98%N 49 in
        length (repeat 97%N 50 ++ [SP] ++ repeat 98%N 49) = 100
        /\ candidate_paragraphs ucd self content =
           [repeat 97%N 50 ++ [SP] ++ repeat 98%N 49]
        /\ extract_paragraphs ucd self content = [])
    /\ (let content := repeat 97%N 50 ++ [NL] ++ repeat 98%N 50 in
        extract_paragraphs ucd self content =
        [repeat 97%N 50 ++ [SP] ++ repeat 98%N 50])
    /\ (let p := s_ "_" ++ repeat 97%N 99 ++ s_ "_" in
        length p = 101
        /\ extract_paragraphs ucd self p = [p]
        /\ clean_markdown ucd self p = repeat 97%N 99).
Proof.
  intros ucd self. split; [|split].
  - exact (extract_paragraphs_gate ucd self).
  - intros content p. rewrite extract_paragraphs_gate, filter_In.
    unfold long_enough. now rewrite Nat.ltb_lt.
  - repeat match goal with
           | |- _ /\ _ => split
           | |- let _ := _ in _ => intro
           end; vm_compute; reflexivity.
Qed.

(** ** Lines that do not end a paragraph *)

Lemma step_not_skippable ucd self i st line :
  skippable (strip line) = false ->
  step ucd self i st line =
  if in_frontmatter st then st
  else if is_markup_only ucd self (strip line) then st
       else {| paragraphs := paragraphs st;
               current_paragraph := current_paragraph st ++ [strip line];
               in_frontmatter := in_frontmatter st |}.
Proof.
  intros Hskip. unfold step.
  rewrite (skippable_rule _ Hskip), (skippable_empty _ Hskip), Hskip.
  rewrite !andb_false_r. cbn [negb andb].
  destruct (in_frontmatter st); [reflexivity|].
  now destruct (is_markup_only ucd self (strip line)).
Qed.

Lemma step_prose ucd self i st line :
  in_frontmatter st = false -> prose_line ucd self line = true ->
  step ucd self i st line =
  {| paragraphs := paragraphs st;
     current_paragraph := current_paragraph st ++ [strip line];
     in_frontmatter := false |}.
Proof.
  unfold prose_line. intros Hfm H.
  apply andb_true_iff in H. destruct H as [Hs Hm].
  apply negb_true_iff in Hs, Hm.
  now rewrite (step_not_skippable _ _ _ _ _ Hs), Hfm, Hm.
Qed.

Lemma step_markup_only ucd self i st line :
  in_frontmatter st = false -> skippable (strip line) = false ->
  is_markup_only ucd self (strip line) = true ->
  step ucd self i st line = st.
Proof.
  intros Hfm Hs Hm. now rewrite (step_not_skippable _ _ _ _ _ Hs), Hfm, Hm.
Qed.

(** C2. Only a skippable line (or the end of the input) closes the buffer:
    a line that is not skippable leaves the paragraphs found so far alone
    and at most extends the buffer; one that [is_markup_only] judges
    markup-only leaves the whole state as it was, so the prose lines on
    both sides of it land in one buffer, and in one paragraph. *)
Theorem markup_only_line_does_not_close_paragraph :
  forall ucd self,
    (forall i st line,
        skippable (strip line) = false ->
        paragraphs (step ucd self i st line) = paragraphs st
        /\ exists more,
            current_paragraph (step ucd self i st line) =
            current_paragraph st ++ more)
    /\ (forall i st line,
           in_frontmatter st = false ->
           skippable (strip line) = false ->
           is_markup_only ucd self (strip line) = true ->
           step ucd self i st line = st)
    /\ (forall i st p1 m p2,
           in_frontmatter st = false ->
           prose_line ucd self p1 = true ->
           skippable (strip m) = false ->
           is_markup_only ucd self (strip m) = true ->
           prose_line ucd self p2 = true ->
           run ucd self i st [p1; m; p2] =
           {| paragraphs := paragraphs st;
              current_paragraph :=
                current_paragraph st ++ [strip p1; strip p2];
              in_frontmatter := false |})
    /\ (let p1 :=
          "A first line of prose that is long enough to count as text"%string
        in
        let m := "See [[Some Linked Note]]."%string in
        let p2 :=
          "and a second line that carries the same thought to its end."%string
        in
        skippable (s_ m) = false
        /\ is_markup_only ucd self (s_ m) = true
        /\ extract_paragraphs ucd self (doc [p1; m; p2]) =
           [s_ p1 ++ [SP] ++ s_ p2])
    /\ (let m :=
          "[[A Linked Note Whose Title Is Long Enough To Pass Fifty]]"%string
        in
        skippable (s_ m) = false
        /\ is_markup_only ucd self (s_ m) = true).
Proof.
  intros ucd self. split; [|split; [|split; [|split]]].
  - intros i st line Hs. rewrite (step_not_skippable _ _ _ _ _ Hs).
    destruct (in_frontmatter st);
      [split; [reflexivity | exists []; now rewrite app_nil_r]|].
    destruct (is_markup_only ucd self (strip line)).
    + split; [reflexivity | exists []; now rewrite app_nil_r].
    + cbn [paragraphs current_paragraph]. split; eauto.
  - intros. now apply step_markup_only.
  - intros i st p1 m p2 Hfm H1 Hs Hm H2. cbn [run].
    rewrite (step_prose _ _ _ _ _ Hfm H1).
    set (st1 := {| paragraphs := paragraphs st;
                   current_paragraph := current_paragraph st ++ [strip p1];
                   in_frontmatter := false |}).
    assert (Hfm1 : in_frontmatter st1 = false) by reflexivity.
    rewrite (step_markup_only _ _ (S i) _ m Hfm1 Hs Hm).
    rewrite (step_prose _ _ (S (S i)) _ p2 Hfm1 H2).
    subst st1. cbn [paragraphs current_paragraph].
    now rewrite <- app_assoc.
  - intros p1 m p2. repeat match goal with |- _ /\ _ => split end;
      vm_compute; reflexivity.
  - intros m. split; vm_compute; reflexivity.
Qed.

(** The theorem above at a concrete state and line. *)
Lemma markup_only_line_does_not_close_paragraph_witness :
  let st := {| paragraphs := [];
               current_paragraph := [s_ "some prose gathered so far"];
               in_frontmatter := false |} in
  let line := s_ "  See [[Some Linked Note]].  " in
  in_frontmatter st = false
  /\ skippable (strip line) = false
  /\ is_markup_only ascii_only some_display (strip line) = true
  /\ step ascii_only some_display 3 st line = st.
Proof.
  intros st line.
  assert (H1 : in_frontmatter st = false) by reflexivity.
  assert (H2 : skippable (strip line) = false) by (vm_compute; reflexivity).
  assert (H3 : is_markup_only ascii_only some_display (strip line) = true)
    by (vm_compute; reflexivity).
  refine (conj H1 (conj H2 (conj H3 _))).
  exact (proj1 (proj2 (markup_only_line_does_not_close_paragraph
                         ascii_only some_display)) 3 st line H1 H2 H3).
Defined.

(** A wiki-link alone on its line and shorter than 50 characters is a
    different matter: it is skippable, and does end the paragraph. *)
Example standalone_short_wikilink_is_skippable :
  skippable (s_ "[[Some Linked Note]]") = true.
Proof. vm_compute; reflexivity. Qed.

(** ** Frontmatter *)

Lemma str_eqb_neq (a b : str) : a <> b -> str_eqb a b = false.
Proof.
  intros H. destruct (str_eqb a b) eqn:E; auto.
  apply str_eqb_eq in E. contradiction.
Qed.

Lemma str_eqb_refl (a : str) : str_eqb a a = true.
Proof. now apply str_eqb_eq. Qed.

(** Inside the block nothing happens until the closing line. *)
Lemma run_inside_frontmatter ucd self lines : forall i st,
  in_frontmatter st = true ->
  Forall (fun l => strip l <> rule) lines ->
  run ucd self i st lines = st.
Proof.
  induction lines as [|l ls IH]; intros i st Hfm Hls; cbn [run]; auto.
  inversion Hls as [|? ? Hl Hls']; subst.
  assert (Hst : step ucd self i st l = st).
  { unfold step. fold rule. rewrite (str_eqb_neq Hl), Hfm.
    now rewrite andb_false_r. }
  rewrite Hst. now apply IH.
Qed.

Lemma step_open_frontmatter ucd self l0 :
  strip l0 = rule ->
  step ucd self 0 loop_init l0 =
  {| paragraphs := []; current_paragraph := []; in_frontmatter := true |}.
Proof.
  intros H. unfold step. fold rule. now rewrite H, str_eqb_refl.
Qed.

Lemma step_close_frontmatter ucd self i st l :
  in_frontmatter st = true -> strip l = rule ->
  step ucd self (S i) st l =
  {| paragraphs := paragraphs st;
     current_paragraph := current_paragraph st;
     in_frontmatter := false |}.
Proof.
  intros Hfm H. unfold step. fold rule. now rewrite H, str_eqb_refl, Hfm.
Qed.

Lemma run_app ucd self a : forall b i st,
  run ucd self i st (a ++ b) =
  run ucd self (i + length a) (run ucd self i st a) b.
Proof.
  induction a as [|x a IH]; intros b i st; cbn [run app length].
  - now rewrite Nat.add_0_r.
  - rewrite IH. now rewrite Nat.add_succ_r.
Qed.

(** C3. When line 0 trims to [---]: if no later line trims to [---] the
    result is empty; otherwise everything up to and including the first
    later line that trims to [---] is left out, whatever it holds, and the
    result is that of the loop started afresh on the lines after it. *)
Theorem frontmatter_is_excluded :
  forall ucd self content l0 rest,
    split_nl content = l0 :: rest ->
    strip l0 = s_ "---" ->
    (Forall (fun l => strip l <> s_ "---") rest ->
     extract_paragraphs ucd self content = [])
    /\ (forall fm close body,
           rest = fm ++ close :: body ->
           Forall (fun l => strip l <> s_ "---") fm ->
           strip close = s_ "---" ->
           extract_paragraphs ucd self content =
           paragraphs_of_lines ucd self (2 + length fm) body).
Proof.
  intros ucd self content l0 rest Hsplit H0. fold rule in *.
  unfold extract_paragraphs. rewrite Hsplit. cbn [run].
  rewrite (step_open_frontmatter ucd self l0 H0).
  set (st1 := {| paragraphs := []; current_paragraph := [];
                 in_frontmatter := true |}).
  assert (Hst1 : in_frontmatter st1 = true) by reflexivity.
  split.
  - intros Hrest.
    now rewrite (run_inside_frontmatter ucd self 1 st1 Hst1 Hrest).
  - intros fm close body -> Hfm Hclose.
    rewrite run_app.
    rewrite (run_inside_frontmatter ucd self 1 st1 Hst1 Hfm).
    cbn [run]. change (1 + length fm) with (S (length fm)).
    rewrite (step_close_frontmatter ucd self (length fm) st1 close
                                    Hst1 Hclose).
    reflexivity.
Qed.

(** The theorem above on a note with a heading inside its frontmatter, and
    on the same note with the closing line missing. *)
Lemma frontmatter_is_excluded_witness :
  let fm := [s_ "title: A Book"; s_ "# a heading inside"] in
  let body := [s_ "# A Book"; s_ "short text"] in
  let closed := doc ["---"; "title: A Book"; "# a heading inside"; "---";
                     "# A Book"; "short text"]%string in
  let unclosed := doc ["---"; "title: A Book"; "# a heading inside";
                       "# A Book"; "short text"]%string in
  (split_nl closed = s_ "---" :: fm ++ s_ "---" :: body
   /\ extract_paragraphs ascii_only some_display closed =
      paragraphs_of_lines ascii_only some_display 4 body)
  /\ (split_nl unclosed = s_ "---" :: fm ++ body
      /\ extract_paragraphs ascii_only some_display unclosed = []).
Proof.
  intros fm body closed unclosed.
  assert (Hne : Forall (fun l => strip l <> s_ "---") (fm ++ body)).
  { repeat constructor; vm_compute; discriminate. }
  assert (Hfm : Forall (fun l => strip l <> s_ "---") fm).
  { repeat constructor; vm_compute; discriminate. }
  assert (H1 : split_nl closed = s_ "---" :: fm ++ s_ "---" :: body)
    by (vm_compute; reflexivity).
  assert (H2 : split_nl unclosed = s_ "---" :: fm ++ body)
    by (vm_compute; reflexivity).
  assert (H0 : strip (s_ "---") = s_ "---") by (vm_compute; reflexivity).
  split; split; try assumption.
  - exact (proj2 (frontmatter_is_excluded ascii_only some_display
                    closed H1 H0) fm (s_ "---") body eq_refl Hfm H0).
  - exact (proj1 (frontmatter_is_excluded ascii_only some_display
                    unclosed H2 H0) Hne).
Defined.

(** ** Skippable lines *)

Lemma step_before_line ucd self i st line :
  before_line i st -> before_line (S i) (step ucd self i st line).
Proof.
  intros [H0 Hfm]. split; [discriminate|]. unfold step.
  destruct (Nat.eqb_spec i 0) as [->|Hi]; cbn [andb].
  - rewrite (H0 eq_refl). cbn [in_frontmatter andb].
    destruct (str_eqb (strip line) (s_ "---")); [now split|].
    destruct (skippable (strip line)); [discriminate|].
    now destruct (negb _ && negb _).
  - destruct (in_frontmatter st) eqn:E; cbn [andb].
    + destruct (str_eqb (strip line) (s_ "---")); [discriminate|].
      now rewrite E.
    + destruct (skippable (strip line)); [discriminate|].
      destruct (negb _ && negb _); [discriminate|]. now rewrite E.
Qed.

Lemma run_before_line ucd self lines : forall i st,
  before_line i st ->
  before_line (i + length lines) (run ucd self i st lines).
Proof.
  induction lines as [|l ls IH]; intros i st H; cbn [run length].
  - now rewrite Nat.add_0_r.
  - rewrite Nat.add_succ_r. apply (IH (S i)). now apply step_before_line.
Qed.

Lemma step_skippable_flushes ucd self i st line :
  before_line i st -> skippable (strip line) = true ->
  paragraphs (step ucd self i st line) =
  finalize (paragraphs st) (current_paragraph st)
  /\ current_paragraph (step ucd self i st line) = [].
Proof.
  intros [H0 Hfm] Hs. unfold step. rewrite Hs.
  destruct (Nat.eqb_spec i 0) as [->|Hi]; cbn [andb].
  - rewrite (H0 eq_refl). cbn [in_frontmatter andb].
    now destruct (str_eqb (strip line) (s_ "---")).
  - destruct (in_frontmatter st) eqn:E; cbn [andb]; [|now split].
    destruct (Hfm eq_refl) as [Hp Hc].
    destruct (str_eqb (strip line) (s_ "---"));
      cbn [paragraphs current_paragraph]; rewrite ?Hp, ?Hc; now split.
Qed.

Lemma step_skippable_alike ucd self i st l l' :
  skippable (strip l) = true -> skippable (strip l') = true ->
  str_eqb (strip l) (s_ "---") = str_eqb (strip l') (s_ "---") ->
  step ucd self i st l = step ucd self i st l'.
Proof.
  intros H H' E. unfold step. now rewrite H, H', E.
Qed.

Lemma run_prose ucd self prose : forall i st,
  in_frontmatter st = false ->
  Forall (fun l => prose_line ucd self l = true) prose ->
  run ucd self i st prose
  = {| paragraphs := paragraphs st;
       current_paragraph := current_paragraph st ++ map strip prose;
       in_frontmatter := false |}.
Proof.
  induction prose as [|l ls IH]; intros i st Hfm H; cbn [run map].
  - rewrite app_nil_r. destruct st as [ps cur fm]. cbn in *. now subst fm.
  - inversion H as [|? ? Hl Hls]; subst.
    rewrite (step_prose ucd self i st l Hfm Hl), IH; auto.
    cbn [paragraphs current_paragraph]. now rewrite <- app_assoc.
Qed.

Lemma finalize_kept (ps cur : list str) :
  cur <> [] -> 100 < length (strip (join [SP] cur)) ->
  finalize ps cur = ps ++ [strip (join [SP] cur)].
Proof.
  intros Hne Hlen. unfold finalize. destruct cur as [|l cur]; [easy|].
  apply Nat.ltb_lt in Hlen. now rewrite Hlen.
Qed.

Lemma finalize_dropped (ps cur : list str) :
  cur = [] \/ length (strip (join [SP] cur)) <= 100 ->
  finalize ps cur = ps.
Proof.
  intros H. unfold finalize. destruct cur as [|l cur]; [reflexivity|].
  destruct H as [H|H]; [discriminate H|].
  apply Nat.ltb_ge in H. now rewrite H.
Qed.

Lemma step_skippable_outside ucd self i st line :
  skippable (strip line) = true -> in_frontmatter st = false ->
  (i = 0 -> strip line <> rule) ->
  step ucd self i st line
  = {| paragraphs := finalize (paragraphs st) (current_paragraph st);
       current_paragraph := [];
       in_frontmatter := false |}.
Proof.
  intros Hs Hfm Hi. unfold step. rewrite Hs, Hfm. cbn [andb].
  destruct (Nat.eqb_spec i 0) as [E|E]; cbn [andb]; [|reflexivity].
  destruct (str_eqb (strip line) (s_ "---")) eqn:Er; [|reflexivity].
  apply str_eqb_eq in Er. now destruct (Hi E).
Qed.

Lemma classify_index ucd self lines : forall i j fm,
  classify ucd self (S i) fm lines = classify ucd self (S j) fm lines.
Proof.
  induction lines as [|l ls IH]; intros i j fm; cbn [classify]; auto.
  change (S i =? 0) with false. change (S j =? 0) with false.
  cbn [andb].
  now rewrite (IH (S i) (S j) false), (IH (S i) (S j) fm).
Qed.

(** C4. A line whose trimmed form meets a skip condition, [![[embed.png]]]
    being one, closes the buffer: the buffered lines, joined and trimmed,
    become a paragraph when that text has more than 100 characters and are
    dropped otherwise, and the buffer is empty afterwards.  So prose lines
    followed by a skippable line give exactly the one paragraph or none.
    Nothing of the line itself is kept: outside the frontmatter the result
    is that of the lines before it followed by that of the lines after it,
    and everywhere it is the same for any other skippable line in its
    place, the rule [---] apart, which can open or close the frontmatter. *)
Theorem skippable_line_is_discarded :
  forall ucd self pre line,
    skippable (strip line) = true ->
    let st := run ucd self 0 loop_init pre in
    let st' := run ucd self 0 loop_init (pre ++ [line]) in
    let text := strip (join [SP] (current_paragraph st)) in
    skippable (s_ "![[embed.png]]") = true
    /\ (current_paragraph st <> [] -> 100 < length text ->
        paragraphs st' = paragraphs st ++ [text])
    /\ (current_paragraph st = [] \/ length text <= 100 ->
        paragraphs st' = paragraphs st)
    /\ current_paragraph st' = []
    /\ (pre <> [] -> Forall (fun l => prose_line ucd self l = true) pre ->
        current_paragraph st = map strip pre
        /\ st' = {| paragraphs :=
                      if 100 <? length (strip (join [SP] (map strip pre)))
                      then [strip (join [SP] (map strip pre))] else [];
                    current_paragraph := [];
                    in_frontmatter := false |})
    /\ (forall post,
           in_frontmatter st = false ->
           (pre = [] -> strip line <> rule) ->
           paragraphs_of_lines ucd self 0 (pre ++ line :: post) =
           paragraphs st' ++ paragraphs_of_lines ucd self 1 post)
    /\ (forall line' post,
           skippable (strip line') = true ->
           (strip line = s_ "---" <-> strip line' = s_ "---") ->
           paragraphs_of_lines ucd self 0 (pre ++ line :: post) =
           paragraphs_of_lines ucd self 0 (pre ++ line' :: post)).
Proof.
  intros ucd self pre line Hs st st' text.
  assert (Hb : before_line (0 + length pre) st)
    by (apply (run_before_line ucd self pre (i := 0)); now split).
  assert (Hst' : st' = step ucd self (0 + length pre) st line)
    by (subst st st'; now rewrite run_app).
  destruct (step_skippable_flushes ucd self line Hb Hs) as [Hp Hc].
  rewrite <- Hst' in Hp, Hc.
  split; [vm_compute; reflexivity|].
  split; [intros Hne Hlen; rewrite Hp; now apply finalize_kept|].
  split; [intros H; rewrite Hp; now apply finalize_dropped|].
  split; [exact Hc|].
  split; [|split].
  - intros Hne Hprose.
    assert (E : st = {| paragraphs := [];
                        current_paragraph := map strip pre;
                        in_frontmatter := false |}).
    { subst st. now rewrite (@run_prose ucd self pre 0 loop_init eq_refl Hprose). }
    split; [now rewrite E|].
    rewrite Hst', step_skippable_outside; auto.
    + rewrite E. cbn [paragraphs current_paragraph]. unfold finalize.
      destruct pre as [|l ls]; [easy|]. cbn [map].
      now destruct (100 <? _).
    + now rewrite E.
    + destruct pre; [easy | discriminate].
  - intros post Hfm Hrule. unfold paragraphs_of_lines.
    change (pre ++ line :: post) with (pre ++ [line] ++ post).
    rewrite app_assoc, run_app. fold st'.
    rewrite !run_refines.
    assert (Hfm' : in_frontmatter st' = false).
    { rewrite Hst', step_skippable_outside; auto.
      intros E. apply Hrule. destruct pre; [reflexivity | discriminate E]. }
    rewrite Hc, Hfm', length_app.
    replace (0 + (length pre + length [line])) with (S (length pre))
      by (cbn [length]; lia).
    change (paragraphs loop_init) with (@nil str).
    change (current_paragraph loop_init) with (@nil str).
    change (in_frontmatter loop_init) with false. cbn [app].
    now rewrite (@classify_index ucd self post (length pre) 0 false).
  - intros line' post Hs' Hrule. unfold paragraphs_of_lines.
    rewrite !run_app. cbn [run].
    rewrite (step_skippable_alike ucd self _ _ line line'); auto.
    destruct (str_eqb (strip line) (s_ "---")) eqn:E.
    + apply str_eqb_eq in E. symmetry. now apply str_eqb_eq, Hrule.
    + destruct (str_eqb (strip line') (s_ "---")) eqn:E'; auto.
      apply str_eqb_eq, Hrule, str_eqb_eq in E'. congruence.
Qed.

(** The theorem above for an embed between two paragraphs of two lines
    each: the lines before it become a paragraph, and so do those after. *)
Lemma skippable_line_is_discarded_witness :
  let pre := map s_
    [ "A first line of prose that is long enough to count as text,";
      "and a second one that brings the paragraph over the gate." ]%string in
  let line := s_ "  ![[embed.png]]" in
  let text := s_ ("A first line of prose that is long enough to count as text,"
                  ++ " and a second one that brings the paragraph over the gate.")
  in
  skippable (strip line) = true
  /\ Forall (fun l => prose_line ascii_only some_display l = true) pre
  /\ length text = 117
  /\ run ascii_only some_display 0 loop_init (pre ++ [line])
     = {| paragraphs := [text]; current_paragraph := [];
          in_frontmatter := false |}
  /\ paragraphs_of_lines ascii_only some_display 0 (pre ++ line :: pre)
     = [text; text].
Proof.
  intros pre line text.
  assert (Hs : skippable (strip line) = true) by (vm_compute; reflexivity).
  assert (Hp : Forall (fun l => prose_line ascii_only some_display l = true)
                      pre)
    by (repeat constructor; vm_compute; reflexivity).
  destruct (skippable_line_is_discarded ascii_only some_display pre line Hs)
    as (_ & _ & _ & _ & Hrun & Hsplit & _).
  assert (Hne : pre <> []) by discriminate.
  destruct (Hrun Hne Hp) as [_ Hst'].
  split; [exact Hs|]. split; [exact Hp|].
  split; [vm_compute; reflexivity|]. split.
  - rewrite Hst'. vm_compute. reflexivity.
  - rewrite (Hsplit pre); [|vm_compute; reflexivity | intros E; destruct (Hne E)].
    rewrite Hst'. vm_compute. reflexivity.
Defined.

(** ** The book title *)

(** What [extract_book_title] computes: the first line of the whole
    document whose trimmed form starts with [# ], frontmatter or not. *)
Lemma first_title_found (pre : list str) (line : str) (post : list str) :
  Forall (fun l => startswith (strip l) (s_ "# ") = false) pre ->
  startswith (strip line) (s_ "# ") = true ->
  first_title (pre ++ line :: post) = strip (slice_from 2 (strip line)).
Proof.
  intros Hpre Hline. induction Hpre as [|l pre Hl _ IH]; cbn [first_title app].
  - now rewrite Hline.
  - now rewrite Hl.
Qed.

Lemma first_title_missing (lines : list str) :
  Forall (fun l => startswith (strip l) (s_ "# ") = false) lines ->
  first_title lines = unknown_book.
Proof.
  intros H. induction H as [|l ls Hl _ IH]; cbn [first_title]; auto.
  now rewrite Hl.
Qed.

(** C5. [extract_book_title] does not know about frontmatter: on a note
    whose frontmatter holds a line starting with [# ], that line is the
    title returned, whether or not a heading follows the block. *)
Theorem extract_book_title_reads_frontmatter :
  forall self,
    extract_book_title self
      (doc ["---"; "# exported by the reader"; "---";
            "# The Real Title"; "Some text."]%string)
    = s_ "exported by the reader"
    /\ extract_book_title self
         (doc ["---"; "# exported by the reader"; "---";
               "Some text."]%string)
       = s_ "exported by the reader"
    /\ extract_book_title self
         (doc ["---"; "author: somebody"; "---";
               "  # The Real Title  "; "Some text."]%string)
       = s_ "The Real Title"
    /\ extract_book_title self
         (doc ["## Not a title"; "#neither"; "Some text."]%string)
       = s_ "Unknown Book".
Proof.
  intros self. repeat match goal with |- _ /\ _ => split end;
    vm_compute; reflexivity.
Qed.

(** ** The cleaner *)

Lemma sub_from_absent ucd (p : regex) (t : template) (c : char) (n : nat) :
  head_literal p = Some c ->
  forall s, ~ In c s -> sub_from ucd n p t 0 s = s.
Proof.
  intros Hp. destruct p as [|[[x| | | | |]| | | | |] its]; try discriminate.
  injection Hp as ->.
  induction s as [|y s IH]; intros Hs.
  - reflexivity.
  - cbn [sub_from]. unfold match_at. cbn [exec atom_ok].
    destruct (N.eqb_spec c y) as [->|Hcy].
    + exfalso. apply Hs. now left.
    + rewrite IH; auto. intros H. apply Hs. now right.
Qed.

Lemma re_sub_absent ucd (p : regex) (t : template) (c : char) (s : str) :
  head_literal p = Some c -> ~ In c s -> re_sub ucd p t s = s.
Proof. intros. unfold re_sub. eapply sub_from_absent; eauto. Qed.

Lemma clean_patterns_heads :
  Forall (fun p => exists c, head_literal p = Some c /\ In c marker_chars)
         clean_patterns.
Proof.
  repeat constructor; eexists; (split; [reflexivity|]);
    vm_compute; tauto.
Qed.

Lemma clean_markdown_plain ucd self (text : str) :
  (forall c, In c marker_chars -> ~ In c text) ->
  clean_markdown ucd self text = text.
Proof.
  intros Hplain. unfold clean_markdown.
  generalize clean_patterns_heads.
  induction clean_patterns as [|p ps IH]; intros Hps; cbn [fold_left]; auto.
  inversion Hps as [|? ? [c [Hc Hin]] Hps']; subst.
  rewrite (re_sub_absent ucd p t_group1 text Hc (Hplain c Hin)). auto.
Qed.

Section Unwrap.
Variable ucd : UnicodeData.

Lemma exec_literal n start ma (o : str) : forall its r mk,
  exec ucd n start ma (literal o ++ its) (o ++ r) mk
  = exec ucd n start ma its r mk.
Proof.
  induction o as [|c o IH]; intros its r mk; cbn [literal map app exec].
  - reflexivity.
  - cbn [atom_ok]. rewrite N.eqb_refl. apply IH.
Qed.

Lemma rep_lazy_scan (R : Type) (a : atom) (k : str -> option R) (v : R)
      (x r : str) :
  Forall (fun y => atom_ok ucd a y = true
                   /\ forall rest, k (y :: rest) = None) x ->
  k r = Some v ->
  rep ucd a false k 0 None (x ++ r) = Some v.
Proof.
  intros Hx Hr. induction Hx as [|y x [Hy Hk] _ IH]; cbn [app].
  - destruct r; cbn [rep]; now rewrite Hr.
  - cbn [rep]. rewrite Hk, Hy. cbn [pred option_map]. exact IH.
Qed.

Lemma sub_from_skip n (p : regex) (t : template) : forall s,
  sub_from ucd n p t (length s) s = sub_from ucd n p t 0 [].
Proof.
  induction s as [|c s IH]; cbn [length sub_from]; auto.
Qed.

Lemma group1_between (x c : str) :
  group1 {| m_open := Some (x ++ c); m_close := Some c |} = x.
Proof.
  unfold group1. cbn [m_open m_close]. rewrite length_app.
  replace (length x + length c - length c) with (length x) by lia.
  rewrite firstn_app, Nat.sub_diag, firstn_all. cbn [firstn].
  now rewrite app_nil_r.
Qed.

Lemma exec_literal_all n start (o : str) mk :
  exec ucd n start false (literal o) o mk = Some ([], mk).
Proof.
  pose proof (exec_literal n start false o [] [] mk) as H.
  rewrite !app_nil_r in H. rewrite H. reflexivity.
Qed.

Lemma match_at_wrapped n (o : str) (d : char) (c x : str) :
  ~ In NL x -> ~ In d x ->
  match_at ucd n false (wrapped o (d :: c)) t_group1 (o ++ x ++ d :: c)
  = Some (length (o ++ x ++ d :: c), x).
Proof.
  intros Hnl Hd. unfold match_at, wrapped.
  rewrite exec_literal. cbn [app exec]. unfold star_lazy.
  set (mk := {| m_open := Some (x ++ d :: c); m_close := None |}).
  rewrite (rep_lazy_scan AAny
             (fun r' => exec ucd n (o ++ x ++ d :: c) false
                             (GClose :: literal (d :: c)) r' mk)
             (v := ([], {| m_open := Some (x ++ d :: c);
                           m_close := Some (d :: c) |}))).
  - cbn [length expand t_group1 flat_map]. rewrite Nat.sub_0_r.
    now rewrite group1_between, app_nil_r.
  - apply Forall_forall. intros y Hy. split.
    + cbn [atom_ok]. apply negb_true_iff, N.eqb_neq.
      intros ->. now apply Hnl.
    + intros rest. cbn [exec literal map atom_ok].
      destruct (N.eqb_spec d y) as [->|]; [now elim Hd | reflexivity].
  - cbn [exec]. cbn [m_open mk]. apply exec_literal_all.
Qed.

Lemma sub_wrapped (o0 : char) (o : str) (d : char) (c x : str) :
  ~ In NL x -> ~ In d x ->
  re_sub ucd (wrapped (o0 :: o) (d :: c)) t_group1
         ((o0 :: o) ++ x ++ d :: c) = x.
Proof.
  intros Hnl Hd. unfold re_sub.
  pose proof (@match_at_wrapped (length ((o0 :: o) ++ x ++ d :: c))
                                (o0 :: o) d c x Hnl Hd) as Hm.
  cbn [app] in *. cbn [sub_from]. rewrite Hm. cbn [length].
  rewrite sub_from_skip. cbn [sub_from]. unfold match_at, wrapped.
  cbn [literal map app exec]. now rewrite app_nil_r.
Qed.

Lemma sub_from_no_pair n (d : char) (its : regex) (t : template) :
  forall s, no_pair d s = true ->
  sub_from ucd n (One (ALit d) :: One (ALit d) :: its) t 0 s = s.
Proof.
  induction s as [|a s IH]; intros Hs; [reflexivity|].
  cbn [sub_from]. unfold match_at. cbn [exec atom_ok].
  assert (Hs' : no_pair d s = true).
  { destruct s as [|b s']; [reflexivity|]. cbn [no_pair] in Hs.
    now apply andb_true_iff in Hs. }
  destruct (N.eqb_spec d a) as [->|Ha].
  - destruct s as [|b s']; [reflexivity|].
    cbn [no_pair] in Hs. rewrite N.eqb_refl in Hs. cbn [andb] in Hs.
    apply andb_true_iff in Hs. destruct Hs as [Hb _].
    apply negb_true_iff in Hb. rewrite N.eqb_sym, Hb.
    now rewrite IH.
  - now rewrite IH.
Qed.

Lemma no_pair_absent (d : char) (s : str) : ~ In d s -> no_pair d s = true.
Proof.
  induction s as [|a s IH]; intros H; [reflexivity|].
  destruct s as [|b s']; [reflexivity|]. cbn [no_pair].
  destruct (N.eqb_spec a d) as [->|]; [elim H; now left|].
  cbn [andb negb]. apply IH. intros Hin. apply H. now right.
Qed.

Lemma no_pair_snoc (d : char) (s : str) :
  ~ In d s -> no_pair d (s ++ [d]) = true.
Proof.
  induction s as [|a s IH]; intros H; [reflexivity|].
  assert (Ha : (a =? d)%N = false).
  { apply N.eqb_neq. intros ->. apply H. now left. }
  assert (Hs : ~ In d s) by (intros Hin; apply H; now right).
  cbn [app]. destruct s as [|b s'].
  - cbn [app no_pair]. now rewrite Ha.
  - cbn [app no_pair]. rewrite Ha. cbn [andb negb]. exact (IH Hs).
Qed.

Lemma no_pair_cons (d : char) (s : str) :
  match s with b :: _ => b <> d | [] => True end ->
  no_pair d s = true -> no_pair d (d :: s) = true.
Proof.
  destruct s as [|b s']; [reflexivity|]. intros Hb Hs.
  change (no_pair d (d :: b :: s'))
    with (negb ((d =? d)%N && (b =? d)%N) && no_pair d (b :: s')).
  apply N.eqb_neq in Hb. rewrite Hb, andb_false_r. exact Hs.
Qed.

Lemma no_pair_after (d : char) (t : str) :
  ~ In d t -> no_pair d (d :: t) = true.
Proof.
  intros H. apply no_pair_cons; [|now apply no_pair_absent].
  destruct t as [|b t']; auto. intros ->. apply H. now left.
Qed.

Lemma no_pair_around (d c0 : char) (x : str) :
  ~ In d (c0 :: x) -> no_pair d (d :: (c0 :: x) ++ [d]) = true.
Proof.
  intros H. apply no_pair_cons; [|now apply no_pair_snoc].
  cbn [app]. intros ->. apply H. now left.
Qed.

Lemma re_sub_no_pair (d : char) (o c : str) (t : template) (s : str) :
  no_pair d s = true -> re_sub ucd (wrapped (d :: d :: o) c) t s = s.
Proof. intros H. unfold re_sub. now apply sub_from_no_pair. Qed.

Lemma match_at_link n (x u : str) :
  ~ In NL x -> ~ In 93%N x -> ~ In NL u -> ~ In 41%N u ->
  match_at ucd n false link_pattern t_group1
           ([91%N] ++ x ++ [93%N; 40%N] ++ u ++ [41%N])
  = Some (length ([91%N] ++ x ++ [93%N; 40%N] ++ u ++ [41%N]), x).
Proof.
  intros Hnl Hx Hnlu Hu. unfold match_at, link_pattern.
  rewrite exec_literal. cbn [app exec]. unfold star_lazy.
  set (tail := 93%N :: 40%N :: u ++ [41%N]).
  set (start := 91%N :: x ++ tail).
  set (mk := {| m_open := Some (x ++ tail); m_close := None |}).
  set (mk2 := {| m_open := Some (x ++ tail); m_close := Some tail |}).
  rewrite (rep_lazy_scan AAny
             (fun r' => exec ucd n start false
                             (GClose :: literal [93%N; 40%N]
                                ++ [Rep 0 None false AAny]
                                ++ literal [41%N]) r' mk)
             (v := ([], mk2))).
  - cbn [length expand t_group1 flat_map]. rewrite Nat.sub_0_r.
    unfold mk2. now rewrite group1_between, app_nil_r.
  - apply Forall_forall. intros y Hy. split.
    + cbn [atom_ok]. apply negb_true_iff, N.eqb_neq.
      intros ->. now apply Hnl.
    + intros rest. cbn [exec literal map app atom_ok].
      destruct (N.eqb_spec 93 y) as [<-|]; [now elim Hx | reflexivity].
  - cbn [exec]. cbn [m_open mk]. fold mk2.
    change tail with ([93%N; 40%N] ++ u ++ [41%N]) at 1.
    rewrite exec_literal. cbn [app exec].
    apply (rep_lazy_scan AAny
             (fun r' => exec ucd n start false (literal [41%N]) r' mk2)).
    + apply Forall_forall. intros y Hy. split.
      * cbn [atom_ok]. apply negb_true_iff, N.eqb_neq.
        intros ->. now apply Hnlu.
      * intros rest. cbn [exec literal map atom_ok].
        destruct (N.eqb_spec 41 y) as [<-|]; [now elim Hu | reflexivity].
    + apply exec_literal_all.
Qed.

Lemma sub_link (x u : str) :
  ~ In NL x -> ~ In 93%N x -> ~ In NL u -> ~ In 41%N u ->
  re_sub ucd link_pattern t_group1
         ([91%N] ++ x ++ [93%N; 40%N] ++ u ++ [41%N]) = x.
Proof.
  intros Hnl Hx Hnlu Hu. unfold re_sub.
  pose proof (@match_at_link
                (length ([91%N] ++ x ++ [93%N; 40%N] ++ u ++ [41%N]))
                x u Hnl Hx Hnlu Hu) as Hm.
  cbn [app] in *. cbn [sub_from]. unfold str, char in *. rewrite Hm.
  cbn [length].
  rewrite sub_from_skip. cbn [sub_from]. unfold match_at, link_pattern.
  cbn [literal map app exec]. now rewrite app_nil_r.
Qed.

Lemma clean_patterns_forms :
  clean_patterns =
  [ wrapped [42; 42] [42; 42]; wrapped [42] [42];
    wrapped [95; 95] [95; 95]; wrapped [95] [95];
    wrapped [96] [96]; wrapped [91; 91] [93; 93]; link_pattern ]%N.
Proof. reflexivity. Qed.

Lemma cleaned_cons p ps text :
  cleaned ucd (p :: ps) text = cleaned ucd ps (re_sub ucd p t_group1 text).
Proof. reflexivity. Qed.

Lemma cleaned_absent p ps text c :
  head_literal p = Some c -> ~ In c text ->
  cleaned ucd (p :: ps) text = cleaned ucd ps text.
Proof.
  intros Hp Hc. rewrite cleaned_cons.
  now rewrite (re_sub_absent ucd p t_group1 text Hp Hc).
Qed.

Lemma free_of_app cs (a b : str) :
  free_of cs a -> free_of cs b -> free_of cs (a ++ b).
Proof.
  intros Ha Hb c Hc Hin. apply in_app_or in Hin.
  destruct Hin; [eapply Ha | eapply Hb]; eauto.
Qed.

Lemma free_of_weaken cs cs' (a : str) :
  incl cs cs' -> free_of cs' a -> free_of cs a.
Proof. intros Hi Ha c Hc. apply Ha, Hi, Hc. Qed.

Ltac not_in Hx Hu :=
  intro;
  repeat match goal with
         | H : In _ (_ ++ _) |- _ =>
             apply in_app_or in H; destruct H as [H|H]
         | H : In _ (_ :: _) |- _ =>
             destruct H as [H|H]; [discriminate H|]
         | H : In _ [] |- _ => destruct H
         | H : In _ _ |- _ =>
             exfalso;
             first [ eapply Hx; [|exact H]; vm_compute; tauto
                   | eapply Hu; [|exact H]; vm_compute; tauto ]
         end.

Ltac pass Hx Hu :=
  erewrite cleaned_absent; [|reflexivity|not_in Hx Hu].

Ltac hit Hx Hu :=
  rewrite cleaned_cons;
  first [ rewrite sub_wrapped; [|not_in Hx Hu|not_in Hx Hu]
        | rewrite sub_link;
          [|not_in Hx Hu|not_in Hx Hu|not_in Hx Hu|not_in Hx Hu] ].

Ltac miss H :=
  rewrite cleaned_cons; rewrite re_sub_no_pair; [|exact H].

Ltac start_clean :=
  match goal with
  | |- clean_markdown ucd ?self ?t = _ =>
      change (clean_markdown ucd self t) with (cleaned ucd clean_patterns t)
  end;
  rewrite clean_patterns_forms.

Lemma clean_markdown_unwraps self (x : str) :
  free_of text_chars x ->
  clean_markdown ucd self ([42; 42]%N ++ x ++ [42; 42]%N) = x
  /\ clean_markdown ucd self ([42]%N ++ x ++ [42]%N) = x
  /\ clean_markdown ucd self ([95; 95]%N ++ x ++ [95; 95]%N) = x
  /\ clean_markdown ucd self ([95]%N ++ x ++ [95]%N) = x
  /\ clean_markdown ucd self ([96]%N ++ x ++ [96]%N) = x
  /\ clean_markdown ucd self ([91; 91]%N ++ x ++ [93; 93]%N) = x
  /\ forall url,
      free_of url_chars url ->
      clean_markdown ucd self
        ([91]%N ++ x ++ [93; 40]%N ++ url ++ [41]%N) = x.
Proof.
  intros Hx.
  repeat match goal with |- _ /\ _ => split end.
  - start_clean. hit Hx Hx. do 6 pass Hx Hx. reflexivity.
  - destruct x as [|c0 x']; [vm_compute; reflexivity|].
    assert (Hp : no_pair 42%N ([42]%N ++ (c0 :: x') ++ [42]%N) = true).
    { apply no_pair_around. not_in Hx Hx. }
    start_clean. miss Hp. hit Hx Hx. do 5 pass Hx Hx. reflexivity.
  - start_clean. do 2 pass Hx Hx. hit Hx Hx. do 4 pass Hx Hx. reflexivity.
  - destruct x as [|c0 x']; [vm_compute; reflexivity|].
    assert (Hp : no_pair 95%N ([95]%N ++ (c0 :: x') ++ [95]%N) = true).
    { apply no_pair_around. not_in Hx Hx. }
    start_clean. do 2 pass Hx Hx. miss Hp. hit Hx Hx. do 3 pass Hx Hx.
    reflexivity.
  - start_clean. do 4 pass Hx Hx. hit Hx Hx. do 2 pass Hx Hx. reflexivity.
  - start_clean. do 5 pass Hx Hx. hit Hx Hx. pass Hx Hx. reflexivity.
  - intros url Hu.
    assert (Hp : no_pair 91%N ([91]%N ++ x ++ [93; 40]%N ++ url ++ [41]%N)
                 = true).
    { apply no_pair_after. not_in Hx Hu. }
    start_clean. do 5 pass Hx Hu. miss Hp. hit Hx Hu. reflexivity.
Qed.
End Unwrap.

Lemma choice_in env (A : Type) (d : A) (seq : list A) (w : World) :
  seq <> [] -> In (fst (choice env d seq w)) seq.
Proof.
  intros Hne. unfold choice. cbn [fst]. apply nth_In.
  apply Nat.mod_upper_bound. destruct seq; [contradiction|discriminate].
Qed.

(** What a turn that returns has done. *)
Lemma attempt_some ucd env self files w q w' :
  files <> [] ->
  attempt ucd env self files w = (Some q, w') ->
  exists f content p,
    In f files /\ fs_read env f = Some content
    /\ In p (extract_paragraphs ucd self content)
    /\ q_quote q = clean_markdown ucd self p
    /\ q_book q = extract_book_title self content
    /\ q_file q = path_name f
    /\ get_obsidian_uri self f = Some (q_obsidian_link q).
Proof.
  intros Hne. unfold attempt.
  pose proof (choice_in env (books_directory self) w Hne) as Hf.
  destruct (choice env (books_directory self) files w) as [f w1].
  cbn [fst] in Hf.
  destruct (fs_read env f) as [content|] eqn:Hread; [|discriminate].
  destruct (extract_paragraphs ucd self content) as [|p0 ps] eqn:Hps;
    [discriminate|].
  assert (Hp : In (fst (choice env [] (p0 :: ps) (open_file f w1)))
                  (p0 :: ps)) by (apply choice_in; discriminate).
  destruct (choice env [] (p0 :: ps) (open_file f w1)) as [p w2].
  cbn [fst] in Hp.
  destruct (get_obsidian_uri self f) as [uri|] eqn:Huri; [|discriminate].
  intros H. injection H as <- <-.
  exists f, content, p. rewrite Hps. cbn. auto 10.
Qed.



(** ** The selector *)

Lemma attempt_barren ucd env self files w :
  files <> [] ->
  (forall f, In f files -> barren ucd env self f) ->
  exists w',
    attempt ucd env self files w = (None, w')
    /\ length (opened w') = S (length (opened w)).
Proof.
  intros Hne Hall. unfold attempt.
  pose proof (choice_in env (books_directory self) w Hne) as Hf.
  unfold choice in *. cbn [fst] in Hf.
  set (f := nth _ files _) in *.
  specialize (Hall f Hf). unfold barren in Hall.
  destruct (fs_read env f) as [content|].
  - rewrite Hall. eexists. split; [reflexivity|].
    cbn. rewrite length_app. cbn. lia.
  - eexists. split; [reflexivity|].
    cbn. rewrite length_app. cbn. lia.
Qed.

Lemma attempts_loop_barren ucd env self files :
  files <> [] ->
  (forall f, In f files -> barren ucd env self f) ->
  forall n w,
    fst (attempts_loop ucd env self files n w) = inl no_suitable_content
    /\ length (opened (snd (attempts_loop ucd env self files n w)))
       = length (opened w) + n.
Proof.
  intros Hne Hall. induction n as [|n IH]; intros w; cbn [attempts_loop].
  - cbn. split; [reflexivity | lia].
  - destruct (attempt_barren ucd env self w Hne Hall) as (w' & -> & Hlen).
    destruct (IH w') as [Hr Ho]. rewrite Hr, Ho, Hlen. split; [reflexivity | lia].
Qed.

Lemma attempt_unreadable ucd env self files w :
  files <> [] ->
  (forall f, In f files -> fs_read env f = None) ->
  exists w',
    attempt ucd env self files w = (None, w')
    /\ length (printed_errors w') = S (length (printed_errors w)).
Proof.
  intros Hne Hall. unfold attempt.
  pose proof (choice_in env (books_directory self) w Hne) as Hf.
  unfold choice in *. cbn [fst] in Hf.
  set (f := nth _ files _) in *.
  rewrite (Hall f Hf). eexists. split; [reflexivity|].
  cbn. rewrite length_app. cbn. lia.
Qed.

Lemma attempts_loop_unreadable ucd env self files :
  files <> [] ->
  (forall f, In f files -> fs_read env f = None) ->
  forall n w,
    length (printed_errors (snd (attempts_loop ucd env self files n w)))
    = length (printed_errors w) + n.
Proof.
  intros Hne Hall. induction n as [|n IH]; intros w; cbn [attempts_loop].
  - cbn. lia.
  - destruct (attempt_unreadable ucd env self w Hne Hall) as (w' & -> & Hlen).
    rewrite IH, Hlen. lia.
Qed.

Lemma attempts_loop_outcome ucd env self files : forall n w,
  fst (attempts_loop ucd env self files n w) = inl no_suitable_content
  \/ exists q, fst (attempts_loop ucd env self files n w) = inr q.
Proof.
  induction n as [|n IH]; intros w; cbn [attempts_loop].
  - now left.
  - destruct (attempt ucd env self files w) as [[q|] w'].
    + right. now exists q.
    + apply IH.
Qed.

Lemma attempt_opens_one ucd env self files w :
  length (opened (snd (attempt ucd env self files w)))
  = S (length (opened w)).
Proof.
  unfold attempt, choice.
  set (f := nth _ files _).
  destruct (fs_read env f) as [content|];
    [|cbn; rewrite length_app; cbn; lia].
  destruct (extract_paragraphs ucd self content) as [|p0 ps];
    [cbn; rewrite length_app; cbn; lia|].
  destruct (get_obsidian_uri self f);
    cbn; rewrite length_app; cbn; lia.
Qed.

Lemma attempts_loop_bounded ucd env self files : forall n w,
  length (opened (snd (attempts_loop ucd env self files n w)))
  <= length (opened w) + n.
Proof.
  induction n as [|n IH]; intros w; cbn [attempts_loop].
  - cbn. lia.
  - pose proof (attempt_opens_one ucd env self files w) as H1.
    destruct (attempt ucd env self files w) as [[q|] w']; cbn [snd] in *.
    + lia.
    + specialize (IH w'). lia.
Qed.

Lemma messages_differ : no_files_found <> no_suitable_content.
Proof. vm_compute. discriminate. Qed.



(** ** The deep link *)

Lemma quote_byte_default (b : byte) :
  quote_byte default_safe b =
  if (b =? 47)%N then [b] else quote_byte [] b.
Proof.
  unfold quote_byte. change default_safe with [47%N].
  cbn [existsb]. rewrite !orb_false_r, (N.eqb_sym 47 b).
  destruct (b =? 47)%N; [now rewrite orb_true_r | now rewrite orb_false_r].
Qed.

Lemma utf8_encode_ascii (s : str) :
  Forall (fun c => (c < 128)%N) s -> utf8_encode s = Some s.
Proof.
  intros H. induction H as [|c s Hc _ IH]; cbn [utf8_encode]; auto.
  unfold utf8_char. apply N.ltb_lt in Hc. now rewrite Hc, IH.
Qed.

(** C8, as the code has it.  The link is the fixed prefix followed by the
    UTF-8 bytes of the absolute path, each kept when it is [/], a letter, a
    digit or one of [_.-~] and written [%XX] otherwise: the encoding of a
    URI component but for [/], which is kept.  A path that cannot be
    encoded (a surrogate) gives no link. *)
Theorem get_obsidian_uri_keeps_path_separators :
  forall self file_path,
    get_obsidian_uri self file_path =
    match utf8_encode (path_absolute file_path) with
    | Some bytes =>
        Some (s_ "obsidian://open?path=" ++
              flat_map (fun b => if (b =? 47)%N then [b]
                                 else if always_safe b then [b]
                                      else percent b) bytes)
    | None => None
    end
    /\ (forall b, b <> 47%N -> quote_byte default_safe b = quote_byte [] b)
    /\ quote_byte default_safe 47%N = s_ "/"
    /\ quote_byte [] 47%N = s_ "%2F"
    /\ (Forall (fun c => (c < 128)%N) (path_absolute file_path) ->
        utf8_encode (path_absolute file_path)
        = Some (path_absolute file_path))
    /\ get_obsidian_uri self
         {| path_name := s_ "My Note.md";
            path_absolute := s_ "/notes/Books/My Note.md" |}
       = Some (s_ "obsidian://open?path=/notes/Books/My%20Note.md")
    /\ get_obsidian_uri self
         {| path_name := [233%N];
            path_absolute := [47%N; 233%N] |}
       = Some (s_ "obsidian://open?path=/%C3%A9")
    /\ get_obsidian_uri self
         {| path_name := [56448%N];
            path_absolute := [47%N; 56448%N] |}
       = None.
Proof.
  intros self file_path. split.
  - unfold get_obsidian_uri, quote.
    destruct (utf8_encode (path_absolute file_path)) as [bytes|]; auto.
    do 2 f_equal. apply flat_map_ext. intros b.
    rewrite quote_byte_default. unfold quote_byte. cbn [existsb].
    now rewrite orb_false_r.
  - split; [|split; [|split; [|split]]].
    + intros b Hb. rewrite quote_byte_default.
      apply N.eqb_neq in Hb. now rewrite Hb.
    + vm_compute; reflexivity.
    + vm_compute; reflexivity.
    + apply utf8_encode_ascii.
    + repeat match goal with |- _ /\ _ => split end;
        vm_compute; reflexivity.
Qed.

(** The theorem above on a path of ASCII characters. *)
Lemma get_obsidian_uri_keeps_path_separators_witness :
  let p := {| path_name := s_ "My Note.md";
              path_absolute := s_ "/notes/Books/My Note.md" |} in
  Forall (fun c => (c < 128)%N) (path_absolute p)
  /\ utf8_encode (path_absolute p) = Some (path_absolute p).
Proof.
  intros p.
  assert (H : Forall (fun c => (c < 128)%N) (path_absolute p))
    by (repeat constructor).
  split; [exact H|].
  exact (proj1 (proj2 (proj2 (proj2 (proj2
           (get_obsidian_uri_keeps_path_separators some_display p))))) H).
Defined.

(** C8, as the specification has it, fails: on a path with a [/] the link
    is not the one the encoding of a URI component gives. *)
Lemma get_obsidian_uri_is_not_component_encoding :
  let p := {| path_name := s_ "My Note.md";
              path_absolute := s_ "/notes/Books/My Note.md" |} in
  get_obsidian_uri some_display p
  = Some (s_ "obsidian://open?path=/notes/Books/My%20Note.md")
  /\ option_map (app uri_prefix) (uri_component (path_absolute p))
     = Some (s_ "obsidian://open?path=%2Fnotes%2FBooks%2FMy%20Note.md")
  /\ get_obsidian_uri some_display p
     <> option_map (app uri_prefix) (uri_component (path_absolute p)).
Proof.
  intros p. split; [vm_compute; reflexivity|].
  split; [vm_compute; reflexivity|].
  vm_compute. discriminate.
Qed.

(** ** The methods are functions of their argument *)

Lemma step_self ucd self1 self2 i st line :
  step ucd self1 i st line = step ucd self2 i st line.
Proof. reflexivity. Qed.

Lemma run_self ucd self1 self2 lines : forall i st,
  run ucd self1 i st lines = run ucd self2 i st lines.
Proof.
  induction lines as [|l ls IH]; intros i st; cbn [run]; [reflexivity|].
  rewrite (step_self ucd self1 self2). apply IH.
Qed.

Lemma nth_first_made (A : Type) (d x : A) (a rest : list A) :
  nth (length a) (a ++ x :: rest) d = x.
Proof. induction a as [|y a IH]; [reflexivity | exact IH]. Qed.

Lemma nth_last_made (A : Type) (d x y : A) (a old : list A) :
  nth (length a + S (length old)) (a ++ x :: old ++ [y]) d = y.
Proof.
  induction a as [|z a IH]; [|exact IH].
  cbn [length Nat.add app nth]. induction old as [|o old IH]; [reflexivity|].
  exact IH.
Qed.

Lemma update_first_made f (a rest : list (list str)) x :
  update (length a) f (a ++ x :: rest) = a ++ f x :: rest.
Proof.
  induction a as [|y a IH]; [reflexivity|].
  cbn [length app update]. now rewrite IH.
Qed.

Lemma update_last_made f (a old : list (list str)) x y :
  update (length a + S (length old)) f (a ++ x :: old ++ [y])
  = a ++ x :: old ++ [f y].
Proof.
  induction a as [|z a IH].
  - cbn [length Nat.add app update]. f_equal.
    induction old as [|o old IH]; [reflexivity|].
    cbn [length app update]. now rewrite IH.
  - cbn [length Nat.add app update]. now rewrite IH.
Qed.

Section StoreProofs.
Variable ucd : UnicodeData.
Variable o : ObsidianQuoteDisplay.

Lemma step_m_tracks self s0 p i line : forall names s st,
  tracks s0 s p names st ->
  tracks s0 (snd (step_m ucd self p i line names s)) p
         (fst (step_m ucd self p i line names s))
         (step ucd o i st line).
Proof.
  intros [c fm] s st (old & Hl & Hp & Hc & Hfm & Ho & Hw).
  cbn [fst snd] in Hc, Hfm. subst c fm p.
  unfold step_m, step.
  destruct ((i =? 0) && str_eqb (strip line) (s_ "---")).
  { exists old. cbn [fst snd ret paragraphs current_paragraph in_frontmatter].
    auto 10. }
  destruct (in_frontmatter st) eqn:Efm; cbn [andb].
  { destruct (str_eqb (strip line) (s_ "---"));
      exists old; cbn [fst snd ret paragraphs current_paragraph in_frontmatter];
      auto 10. }
  destruct (skippable (strip line)) eqn:Es.
  - unfold bind, items. rewrite Hl, nth_last_made.
    unfold finalize.
    destruct (current_paragraph st) as [|l0 cur] eqn:Ecur.
    + exists old. cbn [fst snd ret paragraphs current_paragraph in_frontmatter].
      auto 10.
    + destruct (100 <? length (strip (join [SP] (l0 :: cur)))) eqn:Elen.
      * unfold append, new_list, with_lists, ret.
        cbn [fst snd lists objects world paragraphs current_paragraph
             in_frontmatter].
        rewrite Hl, update_first_made.
        exists (old ++ [l0 :: cur]). rewrite !length_app.
        cbn [length]. repeat split; auto.
        -- repeat (rewrite <- app_assoc || rewrite <- app_comm_cons).
           reflexivity.
        -- cbn [length fst]; rewrite ?length_app; cbn [length]; lia.
      * unfold new_list, with_lists, ret.
        cbn [fst snd lists objects world paragraphs current_paragraph
             in_frontmatter].
        rewrite Hl.
        exists (old ++ [l0 :: cur]). rewrite !length_app.
        cbn [length]. repeat split; auto.
        -- repeat (rewrite <- app_assoc || rewrite <- app_comm_cons).
           reflexivity.
        -- cbn [length fst]; rewrite ?length_app; cbn [length]; lia.
  - destruct (str_eqb (strip line) []); cbn [negb andb].
    { exists old. cbn [fst snd ret]. rewrite Efm. auto 10. }
    unfold bind, is_markup_only_m, ret. fold (is_markup_only ucd o (strip line)).
    destruct (is_markup_only ucd o (strip line)); cbn [negb].
    + exists old. cbn [fst snd]. rewrite Efm. auto 10.
    + unfold append, with_lists.
      cbn [fst snd lists objects world paragraphs current_paragraph
           in_frontmatter].
      rewrite Hl, update_last_made. exists old. auto 10.
Qed.

Lemma run_m_tracks self s0 p lines : forall i names s st,
  tracks s0 s p names st ->
  tracks s0 (snd (run_m ucd self p i lines names s)) p
         (fst (run_m ucd self p i lines names s))
         (run ucd o i st lines).
Proof.
  induction lines as [|l ls IH]; intros i names s st H; cbn [run_m run].
  - exact H.
  - unfold bind.
    pose proof (step_m_tracks self i l H) as H1.
    destruct (step_m ucd self p i l names s) as [names1 s1].
    cbn [fst snd] in H1. exact (IH (S i) names1 s1 _ H1).
Qed.

Lemma extract_paragraphs_m_spec self content s :
  fst (extract_paragraphs_m ucd self content s) = length (lists s)
  /\ objects (snd (extract_paragraphs_m ucd self content s)) = objects s
  /\ world (snd (extract_paragraphs_m ucd self content s)) = world s
  /\ exists old,
       lists (snd (extract_paragraphs_m ucd self content s))
       = lists s ++ extract_paragraphs ucd o content :: old.
Proof.
  set (s1 := with_lists s (lists s ++ [[]])).
  set (s2 := with_lists s1 (lists s1 ++ [[]])).
  assert (H0 : tracks s s2 (length (lists s)) (length (lists s1), false)
                      loop_init).
  { exists []. subst s2 s1. cbn [lists with_lists objects world app fst snd].
    rewrite length_app. cbn [length].
    repeat split; auto; try lia. now rewrite <- app_assoc. }
  pose proof (run_m_tracks self (split_nl content) 0 H0) as H.
  unfold extract_paragraphs_m, bind, new_list, items. fold s1. fold s2.
  match goal with
  | |- context [run_m ?u ?a ?b ?c ?d ?e ?f] =>
      change (run_m u a b c d e f)
        with (run_m ucd self (length (lists s)) 0 (split_nl content)
                    (length (lists s1), false) s2)
  end.
  destruct (run_m ucd self (length (lists s)) 0 (split_nl content)
                  (length (lists s1), false) s2) as [[c fm] s3].
  cbn [fst snd] in H. destruct H as (old & Hl & _ & Hc & _ & Ho & Hw).
  cbn [fst] in Hc. subst c. cbn [fst snd].
  rewrite Hl, nth_last_made. unfold extract_paragraphs.
  set (st := run ucd o 0 loop_init (split_nl content)) in *.
  assert (Ho2 : objects s2 = objects s) by reflexivity.
  assert (Hw2 : world s2 = world s) by reflexivity.
  unfold finalize.
  destruct (current_paragraph st) as [|l0 cur].
  - unfold ret. cbn [fst snd]. rewrite Ho, Hw, Hl.
    repeat split; auto. now exists (old ++ [[]]).
  - destruct (100 <? length (strip (join [SP] (l0 :: cur)))).
    + unfold append, ret, with_lists. cbn [fst snd lists objects world].
      rewrite Ho, Hw, Hl, update_first_made.
      repeat split; auto. now exists (old ++ [l0 :: cur]).
    + unfold ret. cbn [fst snd]. rewrite Ho, Hw, Hl.
      repeat split; auto. now exists (old ++ [l0 :: cur]).
Qed.

Lemma extract_paragraphs_m_result self content s :
  list_of (snd (extract_paragraphs_m ucd self content s))
          (fst (extract_paragraphs_m ucd self content s))
  = extract_paragraphs ucd o content.
Proof.
  destruct (extract_paragraphs_m_spec self content s)
    as (Hr & _ & _ & old & Hl).
  unfold list_of. rewrite Hr, Hl. apply nth_first_made.
Qed.

Lemma extract_paragraphs_m_untouched self content s :
  untouched s (snd (extract_paragraphs_m ucd self content s)).
Proof.
  destruct (extract_paragraphs_m_spec self content s)
    as (_ & Ho & Hw & old & Hl).
  repeat split; auto. now exists (extract_paragraphs ucd o content :: old).
Qed.

Lemma untouched_list_of s s' l :
  untouched s s' -> l < length (lists s) -> list_of s' l = list_of s l.
Proof.
  intros (_ & _ & made & Hl) Hlt. unfold list_of. rewrite Hl.
  now apply app_nth1.
Qed.
End StoreProofs.


(** ** More on strings *)

Lemma lstrip_id (s : str) : edge s = true -> lstrip s = s.
Proof.
  destruct s as [|c s]; [reflexivity|]. cbn [edge lstrip]. intros H.
  apply negb_true_iff in H. now rewrite H.
Qed.

Lemma strip_id (s : str) : trimmed s = true -> strip s = s.
Proof.
  unfold trimmed, strip, rstrip. intros H.
  apply andb_true_iff in H. destruct H as [H1 H2].
  now rewrite (lstrip_id _ H1), (lstrip_id _ H2), rev_involutive.
Qed.

Lemma strip_idempotent (s : str) : strip (strip s) = strip s.
Proof. apply strip_id, strip_trimmed. Qed.

Lemma lstrip_length (s : str) : length (lstrip s) <= length s.
Proof.
  induction s as [|c s IH]; cbn [lstrip length]; auto.
  destruct (isspace c); cbn [length]; lia.
Qed.

Lemma strip_length (s : str) : length (strip s) <= length s.
Proof.
  unfold strip, rstrip. rewrite length_rev.
  etransitivity; [apply lstrip_length|]. rewrite length_rev.
  apply lstrip_length.
Qed.

Lemma lstrip_keeps (s : str) (z : char) :
  In z s -> isspace z = false -> In z (lstrip s).
Proof.
  intros Hin Hz. induction s as [|c s IH]; [destruct Hin|].
  cbn [lstrip]. destruct (isspace c) eqn:Hc; [|exact Hin].
  destruct Hin as [->|Hin]; [congruence | auto].
Qed.

Lemma strip_keeps (s : str) (z : char) :
  In z s -> isspace z = false -> In z (strip s).
Proof.
  intros Hin Hz. unfold strip, rstrip.
  apply in_rev. rewrite rev_involutive.
  apply lstrip_keeps; auto. apply in_rev. rewrite rev_involutive.
  now apply lstrip_keeps.
Qed.

Lemma startswith_nil (s : str) : startswith s [] = true.
Proof. now destruct s. Qed.

Lemma startswith_split (s p : str) :
  startswith s p = true -> s = p ++ skipn (length p) s.
Proof.
  revert s. induction p as [|a p IH]; intros s H; [reflexivity|].
  destruct s as [|c s]; [discriminate|]. cbn [startswith] in H.
  apply andb_true_iff in H. destruct H as [Ha Hp].
  apply N.eqb_eq in Ha. subst c. cbn [length skipn app].
  now rewrite <- (IH s Hp).
Qed.

Lemma startswith_app (l r p : str) :
  length p <= length l -> startswith (l ++ r) p = startswith l p.
Proof.
  revert l. induction p as [|a p IH]; intros l H;
    [now rewrite !startswith_nil|].
  destruct l as [|c l]; [cbn in H; lia|]. cbn [app startswith].
  rewrite IH; [reflexivity | cbn in H; lia].
Qed.

(** ** More on the book title *)

Lemma title_tail_not_empty (t : str) :
  trimmed t = true -> startswith t (s_ "# ") = true ->
  strip (slice_from 2 t) <> [].
Proof.
  intros Ht Hs. apply startswith_split in Hs.
  change (length (s_ "# ")) with 2 in Hs. change (s_ "# ") with [35%N; SP] in Hs.
  unfold slice_from. set (rest := skipn 2 t) in *.
  unfold trimmed in Ht. apply andb_true_iff in Ht. destruct Ht as [_ Hlast].
  rewrite Hs in Hlast. cbn [app rev] in Hlast.
  destruct (rev rest) as [|z r] eqn:Hrev.
  - cbn in Hlast. discriminate.
  - cbn [app edge] in Hlast. apply negb_true_iff in Hlast.
    assert (Hz : In z rest).
    { apply in_rev. rewrite Hrev. now left. }
    intros Hnil. pose proof (strip_keeps rest z Hz Hlast) as Hin.
    rewrite Hnil in Hin. destruct Hin.
Qed.

Lemma first_title_cases (lines : list str) :
  first_title lines = unknown_book
  \/ exists line, In line lines
                  /\ startswith (strip line) (s_ "# ") = true
                  /\ first_title lines = strip (slice_from 2 (strip line)).
Proof.
  induction lines as [|l ls IH]; [now left|]. cbn [first_title].
  destruct (startswith (strip l) (s_ "# ")) eqn:E.
  - right. exists l. repeat split; auto. now left.
  - destruct IH as [IH|(line & Hin & Hs & Heq)]; [now left|].
    right. exists line. repeat split; auto. now right.
Qed.

(** X1. The title is that of the first line whose trimmed form starts with
    [# ]: the text after the two characters, trimmed again; it is
    [Unknown Book] when no line does. *)
Theorem extract_book_title_first_heading :
  forall self content,
    (forall pre line post,
        split_nl content = pre ++ line :: post ->
        Forall (fun l => startswith (strip l) (s_ "# ") = false) pre ->
        startswith (strip line) (s_ "# ") = true ->
        extract_book_title self content
        = strip (slice_from 2 (strip line)))
    /\ (Forall (fun l => startswith (strip l) (s_ "# ") = false)
               (split_nl content) ->
        extract_book_title self content = s_ "Unknown Book").
Proof.
  intros self content. unfold extract_book_title. split.
  - intros pre line post -> Hpre Hline. now apply first_title_found.
  - apply first_title_missing.
Qed.

Lemma extract_book_title_first_heading_witness :
  let content := doc ["notes"; "## Part"; "  # A Book  "; "# Other"]%string in
  extract_book_title some_display content = s_ "A Book"
  /\ extract_book_title some_display (doc ["notes"; "## Part"]%string)
     = s_ "Unknown Book".
Proof.
  intros content. split.
  - refine (proj1 (extract_book_title_first_heading some_display content)
                  [s_ "notes"; s_ "## Part"] (s_ "  # A Book  ")
                  [s_ "# Other"] _ _ _).
    + vm_compute; reflexivity.
    + repeat constructor.
    + vm_compute; reflexivity.
  - refine (proj2 (extract_book_title_first_heading some_display _) _).
    vm_compute. repeat constructor.
Defined.

(** X2. The title is never empty, has no whitespace at either end and
    holds no newline. *)
Theorem extract_book_title_well_formed :
  forall self content,
    extract_book_title self content <> []
    /\ trimmed (extract_book_title self content) = true
    /\ ~ In NL (extract_book_title self content).
Proof.
  intros self content. unfold extract_book_title.
  destruct (first_title_cases (split_nl content))
    as [->|(line & Hin & Hs & ->)].
  - split; [discriminate|]. split; [reflexivity|].
    vm_compute. intuition discriminate.
  - split; [|split].
    + apply title_tail_not_empty; auto using strip_trimmed.
    + apply strip_trimmed.
    + intros H. apply strip_incl in H. unfold slice_from in H.
      assert (Hl : In NL (strip line)).
      { rewrite <- (firstn_skipn 2 (strip line)). apply in_or_app. now right. }
      apply strip_incl in Hl.
      pose proof (split_nl_no_newline content) as Hall.
      rewrite Forall_forall in Hall. exact (Hall line Hin Hl).
Qed.

(** ** What a substitution can add *)

Section Bounds.
Variable ucd : UnicodeData.

Lemma marks_within_lower hi lo lo' mk :
  lo' <= lo -> marks_within hi lo mk -> marks_within hi lo' mk.
Proof.
  intros Hlo [Ho Hc]. split; intros x Hx;
    [specialize (Ho x Hx) | specialize (Hc x Hx)]; lia.
Qed.

Lemma rep_reaches (R : Type) (a : atom) (g : bool) (k : str -> option R)
      (v : R) : forall s lo hi,
  rep ucd a g k lo hi s = Some v ->
  exists s', length s' <= length s /\ k s' = Some v.
Proof.
  induction s as [|c s IH]; intros lo hi H.
  - cbn [rep] in H. destruct lo; [|discriminate].
    destruct g; [|destruct (k []) eqn:E; [|discriminate]];
      exists []; split; auto; congruence.
  - cbn [rep] in H.
    assert (Hmore : forall lo' hi',
               rep ucd a g k lo' hi' s = Some v ->
               exists s', length s' <= length (c :: s) /\ k s' = Some v).
    { intros lo' hi' H'. destruct (IH _ _ H') as (s' & Hlen & Hk).
      exists s'. split; [cbn [length]; lia | exact Hk]. }
    set (more := match hi with
                 | Some 0 => None
                 | _ => if atom_ok ucd a c
                        then rep ucd a g k (pred lo) (option_map pred hi) s
                        else None
                 end) in H.
    assert (Hm : more = Some v ->
                 exists s', length s' <= length (c :: s) /\ k s' = Some v).
    { unfold more. intros Hm. destruct hi as [[|h]|];
        try discriminate; destruct (atom_ok ucd a c);
        try discriminate; eauto. }
    destruct lo; [|auto].
    destruct g.
    + destruct more as [r|] eqn:E; [apply Hm; congruence|].
      exists (c :: s). split; auto.
    + destruct (k (c :: s)) as [r|] eqn:E; [|auto].
      exists (c :: s). split; auto. congruence.
Qed.

Lemma exec_within n start ma (its : regex) : forall r mk r' mk' hi,
  exec ucd n start ma its r mk = Some (r', mk') ->
  length r <= hi -> marks_within hi (length r) mk ->
  length r' <= length r /\ marks_within hi (length r') mk'.
Proof.
  induction its as [|it its IH]; intros r mk r' mk' hi H Hhi Hmk.
  - cbn [exec] in H. destruct (ma && _); [discriminate|].
    injection H as <- <-. auto.
  - destruct it as [a|lo h g a| | | |]; cbn [exec] in H.
    + destruct r as [|c r1]; [discriminate|].
      destruct (atom_ok ucd a c); [|discriminate].
      destruct (IH _ _ _ _ hi H) as [Hlen Hm].
      * cbn [length] in Hhi. lia.
      * eapply marks_within_lower; [|exact Hmk]. cbn [length]. lia.
      * split; [cbn [length]; lia | exact Hm].
    + apply rep_reaches in H. destruct H as (r1 & Hr1 & H).
      destruct (IH _ _ _ _ hi H) as [Hlen Hm]; [lia| |split; [lia|auto]].
      eapply marks_within_lower; [|exact Hmk]. exact Hr1.
    + apply (IH _ _ _ _ hi) in H; auto.
      destruct Hmk as [Ho Hc]. split; cbn [m_open m_close]; auto.
      intros o [= <-]. lia.
    + apply (IH _ _ _ _ hi) in H; auto.
      destruct Hmk as [Ho Hc]. split; cbn [m_open m_close]; auto.
      intros c [= <-]. lia.
    + destruct (length r =? n); [|discriminate]. eauto.
    + destruct r as [|c [|c' r1]]; try discriminate; eauto.
      destruct (c =? NL)%N; [|discriminate]. eauto.
Qed.

Lemma group1_length hi lo mk :
  marks_within hi lo mk -> length (group1 mk) <= hi - lo.
Proof.
  intros [Ho Hc]. unfold group1.
  destruct (m_open mk) as [o|]; [|cbn; lia].
  destruct (m_close mk) as [c|]; [|cbn; lia].
  specialize (Ho o eq_refl). specialize (Hc c eq_refl).
  rewrite length_firstn. lia.
Qed.

Lemma match_at_length n ma p t s k out :
  plain_template t ->
  match_at ucd n ma p t s = Some (k, out) ->
  k <= length s /\ length out <= k.
Proof.
  intros Ht. unfold match_at.
  destruct (exec ucd n s ma p s no_marks) as [[r mk]|] eqn:E; [|discriminate].
  intros [= <- <-].
  destruct (@exec_within n s ma p s no_marks r mk (length s) E)
    as [Hlen Hm]; auto.
  { split; intros x Hx; discriminate Hx. }
  split; [lia|].
  destruct Ht as [->| ->]; cbn [expand t_empty t_group1 flat_map length].
  - lia.
  - rewrite app_nil_r. now apply group1_length.
Qed.

Lemma sub_from_length n p t :
  plain_template t ->
  forall s skip, skip <= length s ->
  length (sub_from ucd n p t skip s) + skip <= length s.
Proof.
  intros Ht. induction s as [|c s IH]; intros skip Hskip.
  - cbn [sub_from]. cbn [length] in *.
    destruct (match_at ucd n false p t []) as [[k out]|] eqn:E;
      [|cbn; lia].
    eapply match_at_length in E; [|exact Ht]. cbn [length] in E. lia.
  - cbn [sub_from length] in *. destruct skip as [|k].
    + destruct (match_at ucd n false p t (c :: s)) as [[[|l] out]|] eqn:E.
      * eapply match_at_length in E; [|exact Ht].
        assert (out = []) by (destruct out; [auto | cbn in E; lia]).
        subst out. cbn [app].
        destruct (match_at ucd n true p t (c :: s)) as [[[|l] out2]|] eqn:E2.
        -- specialize (IH 0). cbn [length]. lia.
        -- eapply match_at_length in E2; [|exact Ht]. cbn [length] in E2.
           rewrite length_app. specialize (IH l). lia.
        -- specialize (IH 0). cbn [length]. lia.
      * eapply match_at_length in E; [|exact Ht]. cbn [length] in E.
        rewrite length_app. specialize (IH l). lia.
      * specialize (IH 0). cbn [length]. lia.
    + specialize (IH k). lia.
Qed.

Lemma re_sub_length p t s :
  plain_template t -> length (re_sub ucd p t s) <= length s.
Proof.
  intros Ht. unfold re_sub.
  pose proof (@sub_from_length (length s) p t Ht s 0). lia.
Qed.

Lemma match_at_t_empty n ma p s k out :
  match_at ucd n ma p t_empty s = Some (k, out) -> out = [].
Proof.
  unfold match_at. destruct (exec _ _ _ _ _ _ _) as [[r mk]|]; [|discriminate].
  now intros [= <- <-].
Qed.

Lemma sub_from_t_empty_incl n p : forall s skip,
  incl (sub_from ucd n p t_empty skip s) s.
Proof.
  induction s as [|c s IH]; intros skip; cbn [sub_from].
  - destruct (match_at ucd n false p t_empty []) as [[k out]|] eqn:E;
      [|apply incl_refl].
    apply match_at_t_empty in E. subst. apply incl_refl.
  - destruct skip as [|k]; [|apply incl_tl, IH].
    destruct (match_at ucd n false p t_empty (c :: s)) as [[[|l] out]|] eqn:E;
      try (apply match_at_t_empty in E; subst out; cbn [app]).
    + destruct (match_at ucd n true p t_empty (c :: s))
        as [[[|l] out2]|] eqn:E2;
        try (apply match_at_t_empty in E2; subst out2; cbn [app]).
      * apply incl_cons; [now left | apply incl_tl, IH].
      * apply incl_tl, IH.
      * apply incl_cons; [now left | apply incl_tl, IH].
    + apply incl_tl, IH.
    + apply incl_cons; [now left | apply incl_tl, IH].
Qed.

Lemma stripped_of_markup_bounds (ps : list regex) : forall line,
  length (fold_left (fun cleaned p => re_sub ucd p t_empty cleaned) ps line)
  <= length line
  /\ incl (fold_left (fun cleaned p => re_sub ucd p t_empty cleaned) ps line)
          line.
Proof.
  induction ps as [|p ps IH]; intros line; cbn [fold_left].
  - split; [lia | apply incl_refl].
  - destruct (IH (re_sub ucd p t_empty line)) as [Hl Hi]. split.
    + etransitivity; [exact Hl|]. apply re_sub_length. now left.
    + eapply incl_tran; [exact Hi|]. apply sub_from_t_empty_incl.
Qed.

(** X3. A line that [is_markup_only] lets through has at least 20
    characters and an alphabetic one: a shorter line, or one without a
    letter, is markup-only whatever it holds. *)
Theorem is_markup_only_short_or_letterless :
  forall self line,
    is_markup_only ucd self line = false ->
    20 <= length line /\ exists c, In c line /\ isalpha ucd c = true.
Proof.
  intros self line H. unfold is_markup_only in H.
  apply orb_false_iff in H. destruct H as [Hlen Halpha].
  destruct (stripped_of_markup_bounds markup_patterns line) as [Hl Hi].
  set (cleaned := fold_left _ markup_patterns line) in *.
  apply Nat.ltb_ge in Hlen. apply negb_false_iff in Halpha.
  apply existsb_exists in Halpha. destruct Halpha as (c & Hc & Ha).
  split.
  - pose proof (strip_length cleaned). lia.
  - exists c. split; [|exact Ha]. apply Hi. now apply strip_incl.
Qed.

(** X4. [clean_markdown] never makes a text longer. *)
Theorem clean_markdown_never_lengthens :
  forall self text,
    length (clean_markdown ucd self text) <= length text.
Proof.
  intros self text. unfold clean_markdown.
  generalize text. induction clean_patterns as [|p ps IH]; intros t;
    cbn [fold_left]; [lia|].
  etransitivity; [apply IH|]. apply re_sub_length. now right.
Qed.
End Bounds.

Lemma is_markup_only_short_or_letterless_witness :
  let line := s_ "A line of plain words, long enough." in
  is_markup_only ascii_only some_display line = false
  /\ 20 <= length line
  /\ exists c, In c line /\ isalpha ascii_only c = true.
Proof.
  intros line.
  assert (H : is_markup_only ascii_only some_display line = false)
    by (vm_compute; reflexivity).
  split; [exact H|].
  exact (is_markup_only_short_or_letterless ascii_only some_display line H).
Defined.

(** ** The make of a paragraph *)

Section Make.
Variable ucd : UnicodeData.
Variable self : ObsidianQuoteDisplay.

Lemma join_cons_cons (sep p q : str) (ps : list str) :
  join sep (p :: q :: ps) = p ++ sep ++ join sep (q :: ps).
Proof. reflexivity. Qed.

Lemma join_head (sep l : str) (ls : list str) :
  exists r, join sep (l :: ls) = l ++ r.
Proof.
  destruct ls as [|q ls].
  - exists []. cbn [join]. now rewrite app_nil_r.
  - exists (sep ++ join sep (q :: ls)). reflexivity.
Qed.

Lemma edge_app (s t : str) : s <> [] -> edge (s ++ t) = edge s.
Proof. destruct s; [contradiction | reflexivity]. Qed.

Lemma join_not_empty (sep l : str) (ls : list str) :
  l <> [] -> join sep (l :: ls) <> [].
Proof.
  intros Hl. destruct (join_head sep l ls) as [r ->].
  destruct l; [contradiction | discriminate].
Qed.

Lemma rev_not_empty (s : str) : s <> [] -> rev s <> [].
Proof.
  intros Hs E. apply Hs. rewrite <- (rev_involutive s), E. reflexivity.
Qed.

Lemma join_trimmed (ls : list str) :
  Forall (fun l => l <> [] /\ trimmed l = true) ls ->
  trimmed (join [SP] ls) = true.
Proof.
  intros H. induction H as [|l ls [Hne Ht] Hls IH]; [reflexivity|].
  destruct ls as [|q ls']; [exact Ht|].
  rewrite join_cons_cons.
  unfold trimmed in *. apply andb_true_iff in Ht, IH.
  destruct Ht as [Ht1 _], IH as [_ IH2].
  inversion Hls as [|? ? [Hq _] _]; subst.
  apply andb_true_iff. split.
  - now rewrite edge_app.
  - rewrite app_assoc, rev_app_distr.
    rewrite edge_app; [exact IH2|].
    apply rev_not_empty. now apply join_not_empty.
Qed.

Lemma buffered_line_shape lines l :
  buffered_line ucd self lines l -> l <> [] /\ trimmed l = true.
Proof.
  intros [(line & _ & ->) [Hs _]]. split.
  - intros E. rewrite E in Hs. discriminate.
  - apply strip_trimmed.
Qed.

Lemma finalize_built lines ps cur :
  Forall (built_from ucd self lines) ps ->
  Forall (buffered_line ucd self lines) cur ->
  Forall (built_from ucd self lines) (finalize ps cur).
Proof.
  intros Hps Hcur. unfold finalize. destruct cur as [|l cur']; auto.
  set (cur := l :: cur') in *.
  destruct (100 <? length (strip (join [SP] cur))); auto.
  apply Forall_app. split; auto. constructor; auto.
  exists cur. split; [discriminate|]. split; auto.
  apply strip_id, join_trimmed.
  eapply Forall_impl; [|exact Hcur]. apply buffered_line_shape.
Qed.

Lemma step_make lines i st line :
  In line lines -> make_inv ucd self lines st ->
  make_inv ucd self lines (step ucd self i st line).
Proof.
  intros Hin [Hps Hcur]. unfold step.
  destruct ((i =? 0) && _); [now split|].
  destruct (in_frontmatter st && _); [now split|].
  destruct (in_frontmatter st); [now split|].
  destruct (skippable (strip line)) eqn:Hs.
  - split; cbn [paragraphs current_paragraph]; auto using finalize_built.
  - rewrite (skippable_empty _ Hs). cbn [negb andb].
    destruct (is_markup_only ucd self (strip line)) eqn:Hm; cbn [negb];
      [now split|].
    split; cbn [paragraphs current_paragraph]; auto.
    apply Forall_app. split; auto. constructor; auto.
    split; [exists line; auto | auto].
Qed.

Lemma run_make lines : forall part i st,
  incl part lines -> make_inv ucd self lines st ->
  make_inv ucd self lines (run ucd self i st part).
Proof.
  induction part as [|l ls IH]; intros i st Hincl Hst; cbn [run]; auto.
  apply IH.
  - intros x Hx. apply Hincl. now right.
  - apply step_make; auto. apply Hincl. now left.
Qed.

(** X5. Every paragraph returned is, to the letter, lines of the document
    joined by single spaces: each line trimmed, none of them skippable,
    none markup-only.  The trimming of the joined text removes nothing. *)
Theorem extract_paragraphs_made_of_lines :
  forall content,
    Forall (fun p =>
              exists ls,
                ls <> [] /\ p = join [SP] ls
                /\ Forall (fun l =>
                             (exists line, In line (split_nl content)
                                           /\ l = strip line)
                             /\ skippable l = false
                             /\ is_markup_only ucd self l = false) ls)
           (extract_paragraphs ucd self content).
Proof.
  intros content. unfold extract_paragraphs.
  destruct (@run_make (split_nl content) (split_nl content) 0 loop_init)
    as [Hps Hcur].
  - apply incl_refl.
  - split; constructor.
  - exact (finalize_built Hps Hcur).
Qed.

Lemma built_from_prefix lines p pre :
  built_from ucd self lines p -> In pre skip_prefixes ->
  startswith p pre = false.
Proof.
  intros (ls & Hne & -> & Hls) Hpre.
  destruct ls as [|l ls']; [contradiction|].
  inversion Hls as [|? ? Hl _]; subst.
  destruct Hl as [_ [Hs Hm]].
  destruct (is_markup_only_short_or_letterless ucd self l Hm) as [Hlen _].
  destruct (join_head [SP] l ls') as [r ->].
  rewrite startswith_app.
  - unfold skippable, any, skip_conditions in Hs. cbn [existsb] in Hs.
    repeat (apply orb_false_iff in Hs; destruct Hs as [? Hs]).
    unfold skip_prefixes in Hpre. cbn [map In] in Hpre.
    repeat (destruct Hpre as [<-|Hpre]; [assumption|]). destruct Hpre.
  - unfold skip_prefixes in Hpre. cbn [map In] in Hpre.
    repeat (destruct Hpre as [<-|Hpre]; [cbn; lia|]). destruct Hpre.
Qed.

(** X6. No paragraph returned begins with one of the markers that make a
    line skippable: heading, code fence, quotation, list item, embed,
    image, highlight, comment or tag. *)
Theorem extract_paragraphs_never_start_with_marker :
  forall content,
    Forall (fun p =>
              Forall (fun pre => startswith p (s_ pre) = false)
                     ["#"; "```"; ">"; "- "; "* "; "1. "; "![["; "!rw-";
                      "!["; "=="; "%%"; "<!--"; "<"]%string)
           (extract_paragraphs ucd self content).
Proof.
  intros content.
  pose proof (extract_paragraphs_made_of_lines content) as H.
  eapply Forall_impl; [|exact H]. intros p Hp.
  apply Forall_forall. intros pre Hpre.
  apply (@built_from_prefix (split_nl content)); [exact Hp|].
  unfold skip_prefixes. now apply in_map.
Qed.
End Make.

(** ** How much text comes out *)

Section Amount.
Variable ucd : UnicodeData.
Variable self : ObsidianQuoteDisplay.

Lemma cost_cons (l : str) (ls : list str) :
  cost (l :: ls) = S (length l) + cost ls.
Proof. reflexivity. Qed.

Lemma total_cons (p : str) (ps : list str) :
  total (p :: ps) = length p + total ps.
Proof. reflexivity. Qed.

Lemma cost_app (a b : list str) : cost (a ++ b) = cost a + cost b.
Proof. unfold cost. now rewrite map_app, list_sum_app. Qed.

Lemma total_app (a b : list str) : total (a ++ b) = total a + total b.
Proof. unfold total. now rewrite map_app, list_sum_app. Qed.

Lemma split_nl_cost (s : str) : cost (split_nl s) = S (length s).
Proof.
  induction s as [|c s IH]; [reflexivity|]. cbn [split_nl].
  destruct (c =? NL)%N.
  - rewrite cost_cons, IH. reflexivity.
  - destruct (split_nl s) as [|l ls]; [discriminate IH|].
    rewrite cost_cons in *. cbn [length]. lia.
Qed.

Lemma join_cost (l : str) (ls : list str) :
  S (length (join [SP] (l :: ls))) = cost (l :: ls).
Proof.
  revert l. induction ls as [|q ls IH]; intros l.
  - rewrite cost_cons. change (cost []) with 0. cbn [join]. lia.
  - rewrite join_cons_cons, !length_app. cbn [length].
    rewrite (cost_cons l), <- IH. lia.
Qed.

Lemma finalize_total (ps cur : list str) :
  total (finalize ps cur) + 1 <= total ps + Nat.max 1 (cost cur).
Proof.
  unfold finalize. destruct cur as [|l cur']; [change (cost []) with 0; lia|].
  pose proof (join_cost l cur') as Hj.
  pose proof (strip_length (join [SP] (l :: cur'))) as Hs.
  destruct (100 <? _).
  - rewrite total_app, total_cons. change (total []) with 0. lia.
  - lia.
Qed.

Lemma step_kept i st line :
  total (paragraphs (step ucd self i st line))
  + Nat.max 1 (cost (current_paragraph (step ucd self i st line)))
  <= kept st + S (length line).
Proof.
  unfold kept, step.
  destruct ((i =? 0) && _); cbn [paragraphs current_paragraph]; [lia|].
  destruct (in_frontmatter st && _);
    cbn [paragraphs current_paragraph]; [lia|].
  destruct (in_frontmatter st); [lia|].
  destruct (skippable (strip line)).
  - cbn [paragraphs current_paragraph].
    pose proof (finalize_total (paragraphs st) (current_paragraph st)).
    change (cost []) with 0. lia.
  - destruct (negb _ && negb _); cbn [paragraphs current_paragraph]; [|lia].
    rewrite cost_app, cost_cons. pose proof (strip_length line).
    change (cost []) with 0. lia.
Qed.

Lemma run_kept lines : forall i st,
  kept (run ucd self i st lines) <= kept st + cost lines.
Proof.
  induction lines as [|l ls IH]; intros i st; cbn [run].
  - change (cost []) with 0. lia.
  - etransitivity; [apply IH|].
    pose proof (step_kept i st l) as H. unfold kept at 1.
    rewrite cost_cons. lia.
Qed.

Lemma run_kept_strict l ls i st :
  total (paragraphs (run ucd self i st (l :: ls)))
  + Nat.max 1 (cost (current_paragraph (run ucd self i st (l :: ls))))
  <= kept st + cost (l :: ls).
Proof.
  revert l i st. induction ls as [|q ls IH]; intros l i st.
  - cbn [run]. pose proof (step_kept i st l).
    rewrite cost_cons. change (cost []) with 0. lia.
  - change (run ucd self i st (l :: q :: ls))
      with (run ucd self (S i) (step ucd self i st l) (q :: ls)).
    etransitivity; [apply IH|].
    pose proof (step_kept i st l) as H. unfold kept at 1.
    rewrite (cost_cons l). lia.
Qed.

Lemma good_paragraphs_total (ps : list str) :
  Forall good_paragraph ps -> 101 * length ps <= total ps.
Proof.
  intros H. induction H as [|p ps [Hp _] _ IH]; [cbn; lia|].
  rewrite total_cons. cbn [length]. lia.
Qed.

(** X7. The paragraphs returned hold, together, no more characters than
    the document: [extract_paragraphs] returns at most one paragraph for
    every 101 characters of the document, and none for a document of 100
    characters or fewer. *)
Theorem extract_paragraphs_total_length :
  forall content,
    list_sum (map (@length char) (extract_paragraphs ucd self content))
    <= length content
    /\ 101 * length (extract_paragraphs ucd self content) <= length content
    /\ (length content <= 100 -> extract_paragraphs ucd self content = []).
Proof.
  intros content.
  assert (Htot : total (extract_paragraphs ucd self content)
                 <= length content).
  { unfold extract_paragraphs.
    pose proof (split_nl_cost content) as Hc.
    destruct (split_nl content) as [|l ls] eqn:E; [discriminate Hc|].
    pose proof (run_kept_strict l ls 0 loop_init) as H.
    change (kept loop_init) with 0 in H. rewrite Hc in H.
    pose proof (finalize_total
                  (paragraphs (run ucd self 0 loop_init (l :: ls)))
                  (current_paragraph (run ucd self 0 loop_init (l :: ls)))).
    lia. }
  assert (Hcount : 101 * length (extract_paragraphs ucd self content)
                   <= total (extract_paragraphs ucd self content)).
  { apply good_paragraphs_total, extract_paragraphs_good. }
  split; [exact Htot|]. split; [lia|].
  intros Hlen. destruct (extract_paragraphs ucd self content); [reflexivity|].
  cbn [length] in Hcount. lia.
Qed.

End Amount.

Lemma extract_paragraphs_total_length_witness :
  length (s_ "Too short to hold a paragraph.") <= 100
  /\ extract_paragraphs ascii_only some_display
       (s_ "Too short to hold a paragraph.") = [].
Proof.
  assert (H : length (s_ "Too short to hold a paragraph.") <= 100)
    by (vm_compute; lia).
  split; [exact H|].
  exact (proj2 (proj2 (extract_paragraphs_total_length
                         ascii_only some_display _)) H).
Defined.

(** ** Whitespace around lines, and notes put end to end *)

Section Compose.
Variable ucd : UnicodeData.
Variable self : ObsidianQuoteDisplay.

Lemma step_strip i st line :
  step ucd self i st (strip line) = step ucd self i st line.
Proof. unfold step. now rewrite strip_idempotent. Qed.

Lemma run_strip lines : forall i st,
  run ucd self i st (map strip lines) = run ucd self i st lines.
Proof.
  induction lines as [|l ls IH]; intros i st; cbn [map run]; auto.
  now rewrite step_strip, IH.
Qed.

Lemma first_title_strip (lines : list str) :
  first_title (map strip lines) = first_title lines.
Proof.
  induction lines as [|l ls IH]; cbn [map first_title]; auto.
  now rewrite strip_idempotent, IH.
Qed.

(** X8. Whitespace at the ends of a line counts for nothing: two documents
    whose lines are equal once trimmed give the same paragraphs and the
    same title. *)
Theorem surrounding_whitespace_is_ignored :
  forall content content',
    map strip (split_nl content) = map strip (split_nl content') ->
    extract_paragraphs ucd self content
    = extract_paragraphs ucd self content'
    /\ extract_book_title self content = extract_book_title self content'.
Proof.
  intros content content' H. split.
  - unfold extract_paragraphs.
    rewrite <- (run_strip (split_nl content)),
            <- (run_strip (split_nl content')).
    now rewrite H.
  - unfold extract_book_title.
    rewrite <- (first_title_strip (split_nl content)),
            <- (first_title_strip (split_nl content')).
    now rewrite H.
Qed.

Lemma split_nl_not_empty (s : str) : split_nl s <> [].
Proof.
  destruct s as [|c s]; [discriminate|]. cbn [split_nl].
  destruct (c =? NL)%N; [discriminate|].
  destruct (split_nl s); discriminate.
Qed.

Lemma split_nl_app (a b : str) :
  split_nl (a ++ NL :: b) = split_nl a ++ split_nl b.
Proof.
  induction a as [|c a IH]; cbn [app split_nl].
  - now rewrite N.eqb_refl.
  - destruct (c =? NL)%N; [now rewrite IH|].
    rewrite IH. pose proof (split_nl_not_empty a) as Hne.
    destruct (split_nl a) as [|l ls]; [contradiction | reflexivity].
Qed.

Lemma step_blank i st :
  in_frontmatter st = false ->
  step ucd self i st [] =
  {| paragraphs := finalize (paragraphs st) (current_paragraph st);
     current_paragraph := [];
     in_frontmatter := false |}.
Proof.
  intros Hfm. unfold step. change (strip []) with (@nil char).
  change (str_eqb [] (s_ "---")) with false.
  change (skippable []) with true.
  now rewrite andb_false_r, Hfm.
Qed.

(** X9. Two notes put end to end with an empty line between them give the
    paragraphs of the first followed by those of the second, as long as
    the first does not leave a frontmatter block open.  The second note is
    read as a continuation: a [---] on its first line is a rule, not the
    start of frontmatter. *)
Theorem extract_paragraphs_of_joined_notes :
  forall first second,
    frontmatter_closed ucd self first ->
    extract_paragraphs ucd self (first ++ [NL; NL] ++ second)
    = extract_paragraphs ucd self first
      ++ extract_paragraphs ucd self (NL :: second).
Proof.
  intros c1 c2 Hclosed. unfold frontmatter_closed in Hclosed.
  unfold extract_paragraphs at 1 3.
  change (c1 ++ [NL; NL] ++ c2) with (c1 ++ NL :: (NL :: c2)).
  rewrite split_nl_app.
  change (split_nl (NL :: c2)) with ([] :: split_nl c2).
  rewrite run_app. cbn [run].
  rewrite (step_blank _ _ Hclosed), (step_blank 0 loop_init eq_refl).
  rewrite !run_refines. cbn [paragraphs current_paragraph in_frontmatter].
  change (finalize [] []) with (@nil str). cbn [app].
  unfold extract_paragraphs.
  rewrite (@classify_index ucd self (split_nl c2)
                             (0 + length (split_nl c1)) 0 false).
  rewrite run_refines. reflexivity.
Qed.
End Compose.

Lemma surrounding_whitespace_is_ignored_witness :
  let a := doc ["# A Book"; ""; "Some text."]%string in
  let b := doc ["   # A Book"; "  "; "  Some text.   "]%string in
  map strip (split_nl a) = map strip (split_nl b)
  /\ extract_paragraphs ascii_only some_display a
     = extract_paragraphs ascii_only some_display b
  /\ extract_book_title some_display a = extract_book_title some_display b.
Proof.
  intros a b.
  assert (H : map strip (split_nl a) = map strip (split_nl b))
    by (vm_compute; reflexivity).
  split; [exact H|].
  exact (surrounding_whitespace_is_ignored ascii_only some_display a b H).
Defined.

Lemma extract_paragraphs_of_joined_notes_witness :
  let first := doc ["---"; "title: A"; "---"; "Some text."]%string in
  let second := doc ["---"; "More text."]%string in
  frontmatter_closed ascii_only some_display first
  /\ extract_paragraphs ascii_only some_display
       (first ++ [NL; NL] ++ second)
     = extract_paragraphs ascii_only some_display first
       ++ extract_paragraphs ascii_only some_display (NL :: second).
Proof.
  intros first second.
  assert (H : frontmatter_closed ascii_only some_display first)
    by (vm_compute; reflexivity).
  split; [exact H|].
  exact (@extract_paragraphs_of_joined_notes ascii_only some_display
           first second H).
Defined.

(** ** More on the selector *)

Section Picking.
Variable ucd : UnicodeData.
Variable env : Env.
Variable self : ObsidianQuoteDisplay.

Lemma attempts_loop_some files : forall n w q w',
  attempts_loop ucd env self files n w = (inr q, w') ->
  exists w0 w1, attempt ucd env self files w0 = (Some q, w1).
Proof.
  induction n as [|n IH]; intros w q w' H; cbn [attempts_loop] in H.
  - discriminate.
  - destruct (attempt ucd env self files w) as [[q0|] w1] eqn:E.
    + injection H as <- <-. eauto.
    + eauto.
Qed.

(** X10. A quote returned is all of one file of the directory: its text is
    a paragraph of that file, cleaned; its book the title of that file;
    its file name and its link those of that file. *)
Theorem get_random_quote_provenance :
  forall w q,
    fst (get_random_quote ucd env self w) = inr q ->
    exists f content p,
      In f (fs_glob_md env (books_directory self))
      /\ fs_read env f = Some content
      /\ In p (extract_paragraphs ucd self content)
      /\ q_quote q = clean_markdown ucd self p
      /\ q_book q = extract_book_title self content
      /\ q_file q = path_name f
      /\ get_obsidian_uri self f = Some (q_obsidian_link q).
Proof.
  intros w q H. unfold get_random_quote, get_markdown_files in H.
  destruct (fs_glob_md env (books_directory self)) as [|f0 fs] eqn:E;
    [discriminate H|].
  destruct (attempts_loop ucd env self (f0 :: fs) 10 w) as [r w'] eqn:El.
  cbn [fst] in H. subst r.
  apply attempts_loop_some in El. destruct El as (w0 & w1 & Ha).
  eapply attempt_some; [|exact Ha]. discriminate.
Qed.

Lemma attempt_fertile files w :
  files <> [] ->
  fertile ucd env self (drawn env self files (draws w)) ->
  exists q,
    attempt ucd env self files w
    = (Some q, {| draws := S (S (draws w));
                  opened := opened w ++ [drawn env self files (draws w)];
                  printed_errors := printed_errors w |})
    /\ q_file q = path_name (drawn env self files (draws w)).
Proof.
  intros Hne (content & Hread & Hps & Huri). unfold attempt, choice.
  fold (drawn env self files (draws w)).
  set (f := drawn env self files (draws w)) in *.
  cbn [open_file draws opened printed_errors]. rewrite Hread.
  destruct (extract_paragraphs ucd self content) as [|p0 ps];
    [contradiction|].
  destruct (get_obsidian_uri self f) as [uri|]; [|contradiction].
  eexists. split; reflexivity.
Qed.

(** X11. When the file the first draw picks is readable, holds a paragraph
    that passes the gate and has a path that can be encoded, the method
    returns a quote from it at once: one file opened, two numbers drawn,
    no error line. *)
Theorem get_random_quote_first_pick :
  forall w,
    let files := fs_glob_md env (books_directory self) in
    files <> [] ->
    fertile ucd env self (drawn env self files (draws w)) ->
    exists q,
      get_random_quote ucd env self w
      = (inr q, {| draws := draws w + 2;
                   opened := opened w ++ [drawn env self files (draws w)];
                   printed_errors := printed_errors w |})
      /\ q_file q = path_name (drawn env self files (draws w)).
Proof.
  intros w files Hne Hf. unfold get_random_quote, get_markdown_files.
  fold files. destruct files as [|f0 fs] eqn:E; [contradiction|].
  destruct (attempt_fertile w Hne Hf) as (q & Ha & Hq).
  exists q. cbn [attempts_loop]. rewrite Ha.
  replace (draws w + 2) with (S (S (draws w))) by lia. auto.
Qed.

Lemma attempt_barren_pick files w :
  files <> [] ->
  barren ucd env self (drawn env self files (draws w)) ->
  exists w',
    attempt ucd env self files w = (None, w')
    /\ draws w' = S (draws w)
    /\ opened w' = opened w ++ [drawn env self files (draws w)].
Proof.
  intros Hne Hb. unfold attempt, choice.
  fold (drawn env self files (draws w)).
  set (f := drawn env self files (draws w)) in *.
  unfold barren in Hb. destruct (fs_read env f) as [content|].
  - rewrite Hb. eexists. repeat split.
  - eexists. repeat split.
Qed.

Lemma attempts_loop_barren_picks files :
  files <> [] ->
  forall n w,
    (forall k, k < n ->
               barren ucd env self (drawn env self files (draws w + k))) ->
    fst (attempts_loop ucd env self files n w) = inl no_suitable_content
    /\ opened (snd (attempts_loop ucd env self files n w))
       = opened w
         ++ map (fun k => drawn env self files (draws w + k)) (seq 0 n).
Proof.
  intros Hne. induction n as [|n IH]; intros w Hall; cbn [attempts_loop].
  - cbn. now rewrite app_nil_r.
  - destruct (@attempt_barren_pick files w Hne) as (w' & -> & Hd & Ho).
    { specialize (Hall 0). rewrite Nat.add_0_r in Hall. apply Hall. lia. }
    destruct (IH w') as [Hr Hopen].
    { intros k Hk. rewrite Hd. specialize (Hall (S k)).
      rewrite Nat.add_succ_r in Hall. apply Hall. lia. }
    split; [exact Hr|]. rewrite Hopen, Ho, Hd.
    cbn [seq map]. rewrite Nat.add_0_r, <- app_assoc. cbn [app].
    do 2 f_equal. rewrite <- seq_shift, map_map.
    apply map_ext. intros k. now rewrite Nat.add_succ_r.
Qed.

End Picking.

Lemma get_random_quote_provenance_witness :
  exists q,
    fst (get_random_quote ascii_only (two_notes 1) some_display world_init)
    = inr q
    /\ exists f content p,
        In f (fs_glob_md (two_notes 1) (books_directory some_display))
        /\ fs_read (two_notes 1) f = Some content
        /\ In p (extract_paragraphs ascii_only some_display content)
        /\ q_quote q = clean_markdown ascii_only some_display p
        /\ q_book q = extract_book_title some_display content
        /\ q_file q = path_name f
        /\ get_obsidian_uri some_display f = Some (q_obsidian_link q).
Proof.
  destruct (fst (get_random_quote ascii_only (two_notes 1) some_display
                   world_init)) as [msg|q] eqn:E;
    [vm_compute in E; discriminate E|].
  exists q. split; [reflexivity|].
  exact (@get_random_quote_provenance ascii_only (two_notes 1) some_display
           world_init q E).
Defined.

Lemma get_random_quote_first_pick_witness :
  let files := fs_glob_md (two_notes 1) (books_directory some_display) in
  files <> []
  /\ fertile ascii_only (two_notes 1) some_display
             (drawn (two_notes 1) some_display files 0)
  /\ exists q,
      get_random_quote ascii_only (two_notes 1) some_display world_init
      = (inr q, {| draws := 0 + 2;
                   opened := [] ++ [drawn (two_notes 1) some_display files 0];
                   printed_errors := [] |})
      /\ q_file q = path_name (drawn (two_notes 1) some_display files 0).
Proof.
  intros files.
  assert (Hne : files <> []) by discriminate.
  assert (Hf : fertile ascii_only (two_notes 1) some_display
                       (drawn (two_notes 1) some_display files 0)).
  { exists (repeat 97%N 120). split; [reflexivity|].
    split; vm_compute; discriminate. }
  split; [exact Hne|]. split; [exact Hf|].
  exact (@get_random_quote_first_pick ascii_only (two_notes 1) some_display
           world_init Hne Hf).
Defined.


(** ** More on the deep link *)

Ltac div_lia := intros; zify; Z.to_euclidean_division_equations; lia.

Lemma testbit_above (x m n : N) :
  (x < 2 ^ m)%N -> (m <= n)%N -> N.testbit x n = false.
Proof.
  intros Hx Hmn. destruct (N.eq_dec x 0) as [->|Hx0]; [apply N.bits_0|].
  apply N.bits_above_log2.
  apply N.lt_le_trans with m; [|exact Hmn].
  apply N.log2_lt_pow2; [lia | exact Hx].
Qed.

Lemma lor_shifted (a m x : N) :
  (x < 2 ^ m)%N -> N.lor (a * 2 ^ m) x = (a * 2 ^ m + x)%N.
Proof.
  intros Hx.
  assert (Hland : N.land (a * 2 ^ m) x = 0%N).
  { apply N.bits_inj. intros n. rewrite N.land_spec, N.bits_0.
    destruct (N.lt_ge_cases n m) as [Hn|Hn].
    - now rewrite N.mul_pow2_bits_low.
    - rewrite (@testbit_above x m n Hx Hn). apply andb_false_r. }
  rewrite <- (N.lxor_lor _ _ Hland). symmetry.
  now apply N.add_nocarry_lxor.
Qed.

Lemma lor_192 (x : N) : (x < 64)%N -> N.lor 192 x = (192 + x)%N.
Proof. intros H. exact (@lor_shifted 3 6 x H). Qed.

Lemma lor_128 (x : N) : (x < 64)%N -> N.lor 128 x = (128 + x)%N.
Proof. intros H. exact (@lor_shifted 2 6 x H). Qed.

Lemma lor_224 (x : N) : (x < 32)%N -> N.lor 224 x = (224 + x)%N.
Proof. intros H. exact (@lor_shifted 7 5 x H). Qed.

Lemma lor_240 (x : N) : (x < 16)%N -> N.lor 240 x = (240 + x)%N.
Proof. intros H. exact (@lor_shifted 15 4 x H). Qed.

Lemma utf8_char_arith (c : char) : utf8_char c = utf8_arith c.
Proof.
  unfold utf8_char, utf8_arith.
  change 63%N with (N.ones 6).
  rewrite !N.land_ones, !N.shiftr_div_pow2.
  change (2 ^ 6)%N with 64%N. change (2 ^ 12)%N with 4096%N.
  change (2 ^ 18)%N with 262144%N.
  destruct (N.ltb_spec c 128); [reflexivity|].
  destruct (N.ltb_spec c 2048).
  { rewrite lor_192, lor_128 by div_lia. reflexivity. }
  destruct (N.ltb_spec c 65536).
  { destruct ((55296 <=? c)%N && (c <=? 57343)%N); [reflexivity|].
    rewrite lor_224, !lor_128 by div_lia. reflexivity. }
  destruct (N.ltb_spec c 1114112); [|reflexivity].
  rewrite lor_240, !lor_128 by div_lia. reflexivity.
Qed.

Lemma some_eq (A : Type) (a b : A) : Some a = Some b -> a = b.
Proof. congruence. Qed.

Ltac all_bytes :=
  let E := fresh in
  intros E; apply some_eq in E; rewrite <- E;
  split; [discriminate|];
  repeat (apply Forall_cons; [div_lia|]); apply Forall_nil.

Lemma utf8_char_bytes (c : char) (bs : list byte) :
  utf8_char c = Some bs -> bs <> [] /\ Forall (fun b => (b < 256)%N) bs.
Proof.
  rewrite utf8_char_arith. unfold utf8_arith.
  destruct (N.ltb_spec c 128); [all_bytes|].
  destruct (N.ltb_spec c 2048); [all_bytes|].
  destruct (N.ltb_spec c 65536).
  { destruct (_ && _); [discriminate|]. all_bytes. }
  destruct (N.ltb_spec c 1114112); [|discriminate].
  all_bytes.
Qed.

Lemma utf8_encode_bytes (s : str) : forall bs,
  utf8_encode s = Some bs -> Forall (fun b => (b < 256)%N) bs.
Proof.
  induction s as [|c s IH]; intros bs; cbn [utf8_encode].
  - intros [= <-]. constructor.
  - destruct (utf8_char c) as [u|] eqn:Ec; [|discriminate].
    destruct (utf8_encode s) as [rest|]; [|discriminate].
    intros [= <-]. apply Forall_app. split; [|now apply IH].
    now apply utf8_char_bytes in Ec.
Qed.

Lemma uri_char_hex (d : N) : (d < 16)%N -> uri_char (hex_digit d) = true.
Proof.
  intros Hd. unfold uri_char, hex_digit.
  destruct (N.ltb_spec d 10).
  - assert (H1 : ascii_isdecimal (48 + d)%N = true).
    { unfold ascii_isdecimal. apply andb_true_iff.
      split; apply N.leb_le; lia. }
    now rewrite H1, orb_true_r.
  - assert (H1 : ascii_isalpha (55 + d)%N = true).
    { unfold ascii_isalpha. apply orb_true_iff. left.
      apply andb_true_iff. split; apply N.leb_le; lia. }
    now rewrite H1.
Qed.

Lemma uri_char_listed (c : char) :
  In c (s_ "_.-~/%:?=") -> uri_char c = true.
Proof.
  intros H. unfold uri_char. apply orb_true_iff. right.
  apply existsb_exists. exists c. split; [exact H | apply N.eqb_refl].
Qed.

Lemma uri_char_kept (b : byte) : kept_byte b = true -> uri_char b = true.
Proof.
  unfold kept_byte, always_safe, uri_char. intros H.
  apply orb_true_iff in H. destruct H as [H|H].
  - apply orb_true_iff in H. destruct H as [H|H]; [now rewrite H|].
    apply existsb_exists in H. destruct H as (x & Hx & Hxb).
    apply N.eqb_eq in Hxb. subst x. apply uri_char_listed.
    vm_compute in Hx. vm_compute. tauto.
  - apply existsb_exists in H. destruct H as (x & Hx & Hxb).
    apply N.eqb_eq in Hxb. subst x. apply uri_char_listed.
    vm_compute in Hx. vm_compute. tauto.
Qed.

Lemma quote_byte_chars (b : byte) :
  (b < 256)%N -> forallb uri_char (quote_byte default_safe b) = true.
Proof.
  intros Hb. unfold quote_byte. fold (kept_byte b).
  destruct (kept_byte b) eqn:E.
  - cbn [forallb]. now rewrite (uri_char_kept _ E).
  - unfold percent. cbn [forallb].
    rewrite !uri_char_hex.
    + reflexivity.
    + change 15%N with (N.ones 4). rewrite N.land_ones.
      change (2 ^ 4)%N with 16%N. div_lia.
    + rewrite N.shiftr_div_pow2. change (2 ^ 4)%N with 16%N. div_lia.
Qed.

(** X13. A deep link is plain ASCII: every character of it is a letter, a
    digit or one of [_.-~/%:?=]; no space, nothing above ASCII. *)
Theorem get_obsidian_uri_characters :
  forall self file_path link,
    get_obsidian_uri self file_path = Some link ->
    forallb (fun c => ascii_isalpha c || ascii_isdecimal c
                      || existsb (fun x => (x =? c)%N) (s_ "_.-~/%:?="))
            link = true.
Proof.
  intros self file_path link. unfold get_obsidian_uri, quote.
  destruct (utf8_encode (path_absolute file_path)) as [bs|] eqn:E;
    [|discriminate].
  intros Hl. apply some_eq in Hl. subst link.
  change (forallb uri_char
            (s_ "obsidian://open?path="
             ++ flat_map (quote_byte default_safe) bs) = true).
  rewrite forallb_app.
  apply andb_true_iff. split; [vm_compute; reflexivity|].
  apply utf8_encode_bytes in E.
  induction E as [|b bs Hb _ IH]; [reflexivity|].
  cbn [flat_map]. rewrite forallb_app, IH, (quote_byte_chars Hb).
  reflexivity.
Qed.

Lemma get_obsidian_uri_characters_witness :
  let p := {| path_name := [233%N; 32%N];
              path_absolute := s_ "/notes/" ++ [233%N; 32%N] |} in
  get_obsidian_uri some_display p = Some (s_ "obsidian://open?path=/notes/%C3%A9%20")
  /\ forallb (fun c => ascii_isalpha c || ascii_isdecimal c
                       || existsb (fun x => (x =? c)%N) (s_ "_.-~/%:?="))
             (s_ "obsidian://open?path=/notes/%C3%A9%20") = true.
Proof.
  intros p.
  assert (H : get_obsidian_uri some_display p
              = Some (s_ "obsidian://open?path=/notes/%C3%A9%20"))
    by (vm_compute; reflexivity).
  split; [exact H|].
  exact (@get_obsidian_uri_characters some_display p _ H).
Defined.

(** ** One link, one path *)

Lemma hex_digit_inj (d e : N) :
  (d < 16)%N -> (e < 16)%N -> hex_digit d = hex_digit e -> d = e.
Proof.
  unfold hex_digit. intros Hd He.
  destruct (N.ltb_spec d 10), (N.ltb_spec e 10); lia.
Qed.

Lemma percent_inj (a b : byte) :
  (a < 256)%N -> (b < 256)%N -> percent a = percent b -> a = b.
Proof.
  intros Ha Hb H. unfold percent in H.
  apply (f_equal (@tl char)) in H. cbn [tl] in H.
  assert (Hh : hex_digit (N.shiftr a 4) = hex_digit (N.shiftr b 4))
    by congruence.
  assert (Hl : hex_digit (N.land a 15) = hex_digit (N.land b 15))
    by congruence.
  clear H. revert Hh Hl.
  change 15%N with (N.ones 4). rewrite !N.land_ones, !N.shiftr_div_pow2.
  change (2 ^ 4)%N with 16%N. intros Hh Hl.
  apply hex_digit_inj in Hh; [|div_lia|div_lia].
  apply hex_digit_inj in Hl; [|div_lia|div_lia].
  div_lia.
Qed.

Lemma quote_byte_cases (b : byte) :
  quote_byte default_safe b = if kept_byte b then [b] else percent b.
Proof. reflexivity. Qed.

Lemma quote_bytes_inj : forall bs1 bs2,
  Forall (fun b => (b < 256)%N) bs1 ->
  Forall (fun b => (b < 256)%N) bs2 ->
  flat_map (quote_byte default_safe) bs1
  = flat_map (quote_byte default_safe) bs2 ->
  bs1 = bs2.
Proof.
  assert (Hpct : kept_byte 37%N = false) by reflexivity.
  induction bs1 as [|a bs1 IH]; intros bs2 H1 H2 H.
  - destruct bs2 as [|b bs2]; [reflexivity|]. exfalso.
    cbn [flat_map] in H. unfold quote_byte, percent in H.
    destruct (_ || _); discriminate H.
  - destruct bs2 as [|b bs2].
    + exfalso. cbn [flat_map] in H. unfold quote_byte, percent in H.
      destruct (_ || _); discriminate H.
    + inversion H1 as [|? ? Ha H1']; inversion H2 as [|? ? Hb H2']; subst.
      cbn [flat_map] in H. rewrite !quote_byte_cases in H.
      destruct (kept_byte a) eqn:Ka, (kept_byte b) eqn:Kb.
      * cbn [app] in H. assert (a = b) by congruence. subst b.
        f_equal. apply IH; auto. congruence.
      * exfalso. unfold percent in H. cbn [app] in H.
        assert (a = 37%N) by congruence. subst a. congruence.
      * exfalso. unfold percent in H. cbn [app] in H.
        assert (b = 37%N) by congruence. subst b. congruence.
      * assert (Hp : percent a = percent b).
        { unfold percent in *. cbn [app] in H. congruence. }
        apply percent_inj in Hp; auto. subst b. f_equal.
        apply IH; auto. unfold percent in H. cbn [app] in H. congruence.
Qed.

(** The first byte tells how many bytes encode the code point. *)
Lemma utf8_arith_inj (c d : char) (u v r s : list byte) :
  utf8_arith c = Some u -> utf8_arith d = Some v ->
  u ++ r = v ++ s -> c = d.
Proof.
  unfold utf8_arith. intros Hc Hd H.
  destruct (N.ltb_spec c 128) as [C1|C1];
    [|destruct (N.ltb_spec c 2048) as [C2|C2];
      [|destruct (N.ltb_spec c 65536) as [C3|C3];
        [destruct ((55296 <=? c)%N && (c <=? 57343)%N); [discriminate|]
        |destruct (N.ltb_spec c 1114112) as [C4|C4]; [|discriminate]]]];
    apply some_eq in Hc; subst u;
    (destruct (N.ltb_spec d 128) as [D1|D1];
     [|destruct (N.ltb_spec d 2048) as [D2|D2];
       [|destruct (N.ltb_spec d 65536) as [D3|D3];
         [destruct ((55296 <=? d)%N && (d <=? 57343)%N); [discriminate|]
         |destruct (N.ltb_spec d 1114112) as [D4|D4]; [|discriminate]]]]);
    apply some_eq in Hd; subst v;
    cbn [app] in H;
    repeat match goal with
           | E : _ :: _ = _ :: _ |- _ =>
               let E1 := fresh in let E2 := fresh in
               assert (E1 := f_equal (hd 0%N) E);
               assert (E2 := f_equal (@tl N) E);
               cbn [hd tl] in E1, E2; clear E
           end;
    div_lia.
Qed.

Lemma utf8_encode_inj : forall s1 s2 bs,
  utf8_encode s1 = Some bs -> utf8_encode s2 = Some bs -> s1 = s2.
Proof.
  induction s1 as [|c s1 IH]; intros s2 bs H1 H2.
  - cbn [utf8_encode] in H1. apply some_eq in H1. subst bs.
    destruct s2 as [|d s2]; [reflexivity|]. exfalso.
    cbn [utf8_encode] in H2.
    destruct (utf8_char d) as [v|] eqn:Ed; [|discriminate].
    destruct (utf8_encode s2); [|discriminate].
    apply some_eq in H2. apply utf8_char_bytes in Ed.
    destruct Ed as [Hne _]. destruct v; [contradiction | discriminate].
  - cbn [utf8_encode] in H1.
    destruct (utf8_char c) as [u|] eqn:Ec; [|discriminate].
    destruct (utf8_encode s1) as [r|] eqn:Er; [|discriminate].
    apply some_eq in H1. subst bs.
    destruct s2 as [|d s2].
    + exfalso. cbn [utf8_encode] in H2. apply some_eq in H2.
      apply utf8_char_bytes in Ec. destruct Ec as [Hne _].
      destruct u; [contradiction | discriminate].
    + cbn [utf8_encode] in H2.
      destruct (utf8_char d) as [v|] eqn:Ed; [|discriminate].
      destruct (utf8_encode s2) as [s|] eqn:Es; [|discriminate].
      apply some_eq in H2.
      assert (c = d).
      { rewrite utf8_char_arith in Ec, Ed.
        exact (@utf8_arith_inj c d u v r s Ec Ed (eq_sym H2)). }
      subst d. rewrite Ec in Ed. apply some_eq in Ed. subst v.
      apply app_inv_head in H2. subst s.
      f_equal. now apply (IH s2 r).
Qed.

(** X14. The link tells the file: two paths that get the same link have
    the same absolute path. *)
Theorem get_obsidian_uri_injective :
  forall self p1 p2 link,
    get_obsidian_uri self p1 = Some link ->
    get_obsidian_uri self p2 = Some link ->
    path_absolute p1 = path_absolute p2.
Proof.
  intros self p1 p2 link. unfold get_obsidian_uri, quote.
  destruct (utf8_encode (path_absolute p1)) as [b1|] eqn:E1; [|discriminate].
  destruct (utf8_encode (path_absolute p2)) as [b2|] eqn:E2; [|discriminate].
  intros H1 H2. apply some_eq in H1, H2. rewrite <- H2 in H1.
  apply app_inv_head in H1.
  apply quote_bytes_inj in H1; eauto using utf8_encode_bytes.
  subst b2. exact (utf8_encode_inj _ _ E1 E2).
Qed.

Lemma get_obsidian_uri_injective_witness :
  let p1 := {| path_name := s_ "a b.md";
               path_absolute := s_ "/notes/a b.md" |} in
  let p2 := {| path_name := s_ "other name";
               path_absolute := s_ "/notes/a b.md" |} in
  get_obsidian_uri some_display p1
  = Some (s_ "obsidian://open?path=/notes/a%20b.md")
  /\ get_obsidian_uri some_display p2
     = Some (s_ "obsidian://open?path=/notes/a%20b.md")
  /\ path_absolute p1 = path_absolute p2.
Proof.
  intros p1 p2.
  assert (H1 : get_obsidian_uri some_display p1
               = Some (s_ "obsidian://open?path=/notes/a%20b.md"))
    by (vm_compute; reflexivity).
  assert (H2 : get_obsidian_uri some_display p2
               = Some (s_ "obsidian://open?path=/notes/a%20b.md"))
    by (vm_compute; reflexivity).
  split; [exact H1|]. split; [exact H2|].
  exact (@get_obsidian_uri_injective some_display p1 p2 _ H1 H2).
Defined.

(** ** The program *)

Section Program.
Variable ucd : UnicodeData.
Variable os : Os.
Variable env : Env.

(** X15. Without its directory the program prints its two lines of error
    and stops: nothing is asked, no file is listed or opened, whatever the
    user would have typed. *)
Theorem main_without_directory :
  forall answers w,
    path_exists os (to_path os books_path) = false ->
    main ucd os env answers w
    = ([ Print (s_ "Error: Directory '/Users/catherinepope/CP/Readwise/Books' not found!");
         Print (s_ "Make sure the path to your Books directory is correct.")
       ], w).
Proof.
  intros answers w H. unfold main, init. rewrite H. reflexivity.
Qed.

Lemma last_after (A : Type) (d : A) (l l' : list A) :
  l' <> [] -> last (l ++ l') d = last l' d.
Proof.
  intros H. induction l as [|a l IH]; [reflexivity|].
  cbn [app last]. destruct (l ++ l') eqn:E; [|exact IH].
  apply app_eq_nil in E. now destruct E.
Qed.

Lemma display_quote_opened self w :
  length (opened (snd (display_quote ucd env self w)))
  <= length (opened w) + 10.
Proof.
  assert (H : length (opened (snd (get_random_quote ucd env self w)))
             <= length (opened w) + 10).
  { unfold get_random_quote.
    destruct (get_markdown_files env self) as [|f files].
    - cbn [snd]. lia.
    - apply attempts_loop_bounded. }
  unfold display_quote.
  destruct (get_random_quote ucd env self w) as [[msg|q] w1];
    cbn [snd] in *; exact H.
Qed.

Lemma display_quote_no_prompt self w :
  filter is_prompt (fst (display_quote ucd env self w)) = [].
Proof.
  unfold display_quote.
  destruct (get_random_quote ucd env self w) as [[msg|q] w1]; reflexivity.
Qed.

Lemma ask_shape self : forall answers w,
  length (filter is_prompt (fst (ask ucd os env self answers w)))
  = S (leading_yes os answers)
  /\ last (fst (ask ucd os env self answers w)) (Print [])
     = (if leading_yes os answers <? length answers
        then Print happy_reading else Print end_of_input)
  /\ length (opened (snd (ask ucd os env self answers w)))
     <= length (opened w) + 10 * leading_yes os answers.
Proof.
  induction answers as [|a rest IH]; intros w; cbn [ask leading_yes].
  - cbn. repeat split; lia.
  - destruct (is_yes os a); [|cbn; repeat split; lia].
    pose proof (display_quote_opened self w) as Ho.
    pose proof (display_quote_no_prompt self w) as Hp.
    destruct (display_quote ucd env self w) as [shown w1].
    cbn [fst snd] in Ho, Hp.
    destruct (IH w1) as (H1 & H2 & H3).
    destruct (ask ucd os env self rest w1) as [more w2] eqn:E.
    cbn [fst snd] in *. split; [|split].
    + cbn [filter is_prompt length]. rewrite filter_app, Hp. cbn [app].
      now rewrite H1.
    + change (Prompt another_quote :: Print (NL :: double_rule)
                :: shown ++ more)
        with ([Prompt another_quote; Print (NL :: double_rule)]
                ++ shown ++ more).
      assert (Hm : more <> []) by (destruct more; [discriminate H1 | discriminate]).
      rewrite (@last_after _ (Print []) _ (shown ++ more)).
      * rewrite (@last_after _ (Print []) shown more Hm). exact H2.
      * intros E0. apply app_eq_nil in E0. now destruct E0.
    + lia.
Qed.

Lemma main_shape answers w :
  path_exists os (to_path os books_path) = true ->
  exists self shown w1,
    display_quote ucd env self w = (shown, w1)
    /\ main ucd os env answers w
       = (Print ([NL; 127922%N] ++ s_ " Random Quote from Your Book Notes:")
            :: shown ++ fst (ask ucd os env self answers w1),
          snd (ask ucd os env self answers w1)).
Proof.
  intros H. unfold main, init. rewrite H.
  set (self := {| books_directory := to_path os books_path |}).
  destruct (display_quote ucd env self w) as [shown w1] eqn:E.
  exists self, shown, w1. split; [exact E|].
  now destruct (ask ucd os env self answers w1).
Qed.


Lemma ask_stops self a post : forall pre w,
  is_yes os a = false ->
  ask ucd os env self (pre ++ a :: post) w
  = ask ucd os env self (pre ++ [a]) w.
Proof.
  induction pre as [|b pre IH]; intros w Ha; cbn [app ask].
  - now rewrite Ha.
  - destruct (is_yes os b); [|reflexivity].
    destruct (display_quote ucd env self w) as [shown w1].
    now rewrite (IH w1 Ha).
Qed.

(** X17. What is typed after the first answer that is not a yes is never
    read: the program prints the same and leaves the same world whatever
    follows that answer. *)
Theorem main_stops_at_first_no :
  forall pre a post w,
    is_yes os a = false ->
    main ucd os env (pre ++ a :: post) w = main ucd os env (pre ++ [a]) w.
Proof.
  intros pre a post w Ha. unfold main.
  destruct (init os books_path) as [message|self]; [reflexivity|].
  destruct (display_quote ucd env self w) as [shown w1].
  now rewrite (@ask_stops self a post pre w1 Ha).
Qed.

Lemma display_quote_empty self w :
  fs_glob_md env (books_directory self) = [] ->
  display_quote ucd env self w = ([Print no_files_found], w).
Proof.
  intros H. unfold display_quote, get_random_quote, get_markdown_files.
  now rewrite H.
Qed.

Lemma ask_empty self :
  fs_glob_md env (books_directory self) = [] ->
  forall answers w,
    ask ucd os env self answers w
    = (concat (repeat [Prompt another_quote; Print (NL :: double_rule);
                       Print no_files_found] (leading_yes os answers))
         ++ [Prompt another_quote;
             if leading_yes os answers <? length answers
             then Print happy_reading else Print end_of_input], w).
Proof.
  intros H. induction answers as [|a rest IH]; intros w;
    cbn [ask leading_yes]; [reflexivity|].
  destruct (is_yes os a); [|reflexivity].
  rewrite (display_quote_empty self w H), IH.
  cbn [repeat concat app length].
  change (S (leading_yes os rest) <? S (length rest))
    with (leading_yes os rest <? length rest).
  reflexivity.
Qed.

(** X18. On a directory without markdown files the program does not stop
    by itself: it prints the title and the no-files text, and for each yes
    the separator and the no-files text again, until an answer is not a
    yes or the input ends; it opens no file and draws no random number. *)
Theorem main_on_empty_directory :
  forall answers w,
    path_exists os (to_path os books_path) = true ->
    fs_glob_md env (to_path os books_path) = [] ->
    let k := leading_yes os answers in
    main ucd os env answers w
    = ([Print ([NL; 127922%N] ++ s_ " Random Quote from Your Book Notes:");
        Print no_files_found]
         ++ concat (repeat [Prompt another_quote; Print (NL :: double_rule);
                            Print no_files_found] k)
         ++ [Prompt another_quote;
             if k <? length answers then Print happy_reading
             else Print end_of_input], w).
Proof.
  intros answers w H He k. subst k. unfold main, init. rewrite H.
  set (self := {| books_directory := to_path os books_path |}).
  rewrite (display_quote_empty self w He), (ask_empty self He answers w).
  reflexivity.
Qed.

Lemma ascii_lower_cases c d :
  (97 <= d <= 122)%N -> ascii_lower c = d -> c = d \/ c = (d - 32)%N.
Proof.
  intros Hd. unfold ascii_lower.
  destruct ((65 <=? c) && (c <=? 90))%N; intros <-; [right; lia | now left].
Qed.

Lemma lower_ascii s :
  forallb (fun c => (c <? 128)%N) s = true -> lower os s = map ascii_lower s.
Proof. intros H. unfold lower. now rewrite H. Qed.

Lemma lower_y c : ascii_lower c = 121%N -> c = 121%N \/ c = 89%N.
Proof. apply ascii_lower_cases. lia. Qed.

Lemma lower_e c : ascii_lower c = 101%N -> c = 101%N \/ c = 69%N.
Proof. apply ascii_lower_cases. lia. Qed.

Lemma lower_s c : ascii_lower c = 115%N -> c = 115%N \/ c = 83%N.
Proof. apply ascii_lower_cases. lia. Qed.

(** X19. An answer is read without regard to case and is not trimmed:
    among the answers made of ASCII characters, exactly y, Y and the eight
    ways of writing yes in capitals and small letters make the program show
    another quote. *)
Theorem is_yes_ascii_answers :
  forall answer,
    forallb (fun c => (c <? 128)%N) answer = true ->
    (is_yes os answer = true
     <-> In answer (map s_ ["y"; "Y"; "yes"; "yeS"; "yEs"; "yES";
                            "Yes"; "YeS"; "YEs"; "YES"]%string)).
Proof.
  intros answer Ha. unfold is_yes. rewrite (lower_ascii answer Ha).
  cbn [existsb]. rewrite !orb_true_iff, !str_eqb_eq. split.
  - intros [H | [H | H]]; [| |discriminate H].
    + destruct answer as [|c [|? ?]]; try discriminate H.
      assert (H1 : ascii_lower c = 121%N) by (injection H; auto).
      destruct (lower_y c H1) as [-> | ->]; vm_compute; auto 12.
    + destruct answer as [|c1 [|c2 [|c3 [|? ?]]]]; try discriminate H.
      assert (H1 : ascii_lower c1 = 121%N) by (injection H; auto).
      assert (H2 : ascii_lower c2 = 101%N) by (injection H; auto).
      assert (H3 : ascii_lower c3 = 115%N) by (injection H; auto).
      destruct (lower_y c1 H1) as [-> | ->];
        destruct (lower_e c2 H2) as [-> | ->];
        destruct (lower_s c3 H3) as [-> | ->]; vm_compute; auto 12.
  - intros H. cbn [map In] in H.
    repeat (destruct H as [<- | H]; [vm_compute; auto|]).
    destruct H.
Qed.
End Program.

Lemma main_without_directory_witness :
  main ascii_only (some_os false) (two_notes 1) [s_ "y"; s_ "n"] world_init
  = ([ Print (s_ "Error: Directory '/Users/catherinepope/CP/Readwise/Books' not found!");
       Print (s_ "Make sure the path to your Books directory is correct.")
     ], world_init).
Proof.
  apply (@main_without_directory ascii_only (some_os false) (two_notes 1)
           [s_ "y"; s_ "n"] world_init).
  reflexivity.
Defined.


Lemma main_stops_at_first_no_witness :
  main ascii_only (some_os true) (two_notes 1)
       ([s_ "y"] ++ s_ "yes " :: [s_ "y"; s_ "y"]) world_init
  = main ascii_only (some_os true) (two_notes 1)
         ([s_ "y"] ++ [s_ "yes "]) world_init.
Proof.
  apply (@main_stops_at_first_no ascii_only (some_os true) (two_notes 1)
           [s_ "y"] (s_ "yes ") [s_ "y"; s_ "y"] world_init).
  reflexivity.
Defined.

Lemma main_on_empty_directory_witness :
  let none := {| fs_glob_md := fun _ => []; fs_read := fun _ => None;
                 rand := fun n => n |} in
  main ascii_only (some_os true) none [s_ "Y"] world_init
  = ([Print ([NL; 127922%N] ++ s_ " Random Quote from Your Book Notes:");
      Print no_files_found;
      Prompt another_quote; Print (NL :: double_rule);
      Print no_files_found;
      Prompt another_quote; Print end_of_input], world_init).
Proof.
  exact (@main_on_empty_directory ascii_only (some_os true)
           {| fs_glob_md := fun _ => []; fs_read := fun _ => None;
              rand := fun n => n |} [s_ "Y"] world_init eq_refl eq_refl).
Defined.

Lemma is_yes_ascii_answers_witness :
  is_yes (some_os true) (s_ "YeS") = true
  /\ is_yes (some_os true) (s_ " y") = false.
Proof.
  split.
  - apply (@is_yes_ascii_answers (some_os true) (s_ "YeS") eq_refl).
    vm_compute. auto 10.
  - destruct (is_yes (some_os true) (s_ " y")) eqn:E; [|reflexivity].
    apply (@is_yes_ascii_answers (some_os true) (s_ " y") eq_refl) in E.
    vm_compute in E. repeat (destruct E as [E | E]; [discriminate E|]).
    destruct E.
Defined.
